(** * simple-oracle-mcp: the request-admission core of [main.py]

    A shallow embedding of [SecurityValidator] (lines 118-291) and
    [RateLimiter] (lines 293-395) of [src/main.py].

    Python [str] values are lists of characters.  Character classification
    ([str.isspace], [str.upper], the regular-expression categories) follows
    CPython on the ASCII code points; the remaining byte values carry no
    case, are not whitespace and are not word characters.

    The regular expressions of the source are kept as syntax trees run by a
    backtracking matcher; [Re.show] prints a tree back to the pattern text
    that stands in [main.py].

    The clock ([time.time()]) is an input of [RateLimiter.is_allowed]; a
    reading is an exact number of ticks of [1 / hz] second. *)

From Stdlib Require Import ZArith List Ascii String Bool Lia DecimalString.
From stdpp Require Import gmap strings.

Import ListNotations.
Local Open Scope bool_scope.

(** ** Python strings *)

Module Py.

Definition str := list ascii.

(** A string literal of the source. *)
Definition lit (s : string) : str := list_ascii_of_string s.

Definition code (c : ascii) : N := N_of_ascii c.

Definition in_range (lo hi c : ascii) : bool :=
  (code lo <=? code c)%N && (code c <=? code hi)%N.

Definition is_upper (c : ascii) : bool := in_range "A" "Z" c.
Definition is_lower (c : ascii) : bool := in_range "a" "z" c.
Definition is_digit (c : ascii) : bool := in_range "0" "9" c.

(** [str.isspace] on one character: TAB, LF, VT, FF, CR, the four
    separators FS, GS, RS, US, and the space. *)
Definition isspace (c : ascii) : bool :=
  ((9 <=? code c)%N && (code c <=? 13)%N)
  || ((28 <=? code c)%N && (code c <=? 32)%N).

Definition upper_char (c : ascii) : ascii :=
  if is_lower c then ascii_of_N (code c - 32) else c.

Definition lower_char (c : ascii) : ascii :=
  if is_upper c then ascii_of_N (code c + 32) else c.

(** [s.upper()] *)
Definition upper (s : str) : str := map upper_char s.

(** [s.lstrip()], [s.rstrip()], [s.strip()] *)
Fixpoint lstrip (s : str) : str :=
  match s with
  | c :: t => if isspace c then lstrip t else s
  | [] => []
  end.

Fixpoint rstrip (s : str) : str :=
  match s with
  | c :: t =>
      match rstrip t with
      | [] => if isspace c then [] else [c]
      | t' => c :: t'
      end
  | [] => []
  end.

Definition strip (s : str) : str := rstrip (lstrip s).

(** [s.startswith(p)] *)
Fixpoint startswith (s p : str) {struct p} : bool :=
  match p, s with
  | [], _ => true
  | x :: p', c :: s' => Ascii.eqb x c && startswith s' p'
  | _ :: _, [] => false
  end.

(** [sub in s] *)
Fixpoint contains (sub s : str) : bool :=
  startswith s sub
  || match s with
     | _ :: t => contains sub t
     | [] => false
     end.

(** [s.count(sub)]: occurrences are counted from the left and do not
    overlap; [skip] characters of the last occurrence are still to pass. *)
Fixpoint count_from (sub s : str) (skip : nat) : nat :=
  match s with
  | [] => 0
  | _ :: t =>
      match skip with
      | S k => count_from sub t k
      | O =>
          if startswith s sub
          then S (count_from sub t (length sub - 1))
          else count_from sub t 0
      end
  end.

Definition count (s sub : str) : nat :=
  match sub with
  | [] => S (length s)
  | _ => count_from sub s 0
  end.

(** [len(s)] *)
Definition len (s : str) : Z := Z.of_nat (length s).

(** [str(n)] for an integer. *)
Definition str_of_int (n : Z) : str :=
  lit (NilZero.string_of_int (Z.to_int n)).

(** [int(x)] of a clock difference of [x] ticks: the whole seconds,
    rounded towards zero. *)
Definition hz : Z := 1000000.

Definition int_seconds (ticks : Z) : Z := Z.quot ticks hz.

End Py.

(** ** Regular expressions, as the [re] module runs them *)

Module Re.
Import Py.

Record flags := Flags { IGNORECASE : bool; MULTILINE : bool; DOTALL : bool }.

Inductive item :=
| Single (c : ascii)
| Range (lo hi : ascii).

Inductive regex :=
| Eps
| Lit (c : ascii)                (* a literal character, escaped if special *)
| Dot                            (* .   *)
| Space                          (* \s  *)
| Cls (items : list item)        (* [...] *)
| WordB                          (* \b  *)
| Bol                            (* ^   *)
| Eol                            (* $   *)
| Seq (r1 r2 : regex)
| Alt (r1 r2 : regex)
| Group (r : regex)              (* (...) *)
| Star (r : regex)               (* r*  *)
| StarLazy (r : regex)           (* r*? *)
| Plus (r : regex).              (* r+  *)

(** The pattern text of a literal word. *)
Fixpoint word (s : string) : regex :=
  match s with
  | EmptyString => Eps
  | String c EmptyString => Lit c
  | String c t => Seq (Lit c) (word t)
  end.

Fixpoint alts (rs : list regex) : regex :=
  match rs with
  | [] => Eps
  | [r] => r
  | r :: rs' => Alt r (alts rs')
  end.

Fixpoint seqs (rs : list regex) : regex :=
  match rs with
  | [] => Eps
  | [r] => r
  | r :: rs' => Seq r (seqs rs')
  end.

(** *** Printing a tree as pattern text *)

Definition special (c : ascii) : bool :=
  existsb (Ascii.eqb c) (lit ".^$*+?{}[]\|()").

Definition show_item (i : item) : str :=
  match i with
  | Single c => [c]
  | Range lo hi => [lo; "-"%char; hi]
  end.

(** [lvl] is the context: 0 under an alternation, 1 in a sequence, 2 as the
    operand of a repetition. A tree that needs brackets the pattern text
    does not have is printed with [(?:...)]. *)
Fixpoint show (lvl : nat) (r : regex) : str :=
  let wrap (need : bool) (s : str) :=
    if need then lit "(?:" ++ s ++ lit ")" else s in
  match r with
  | Eps => []
  | Lit c => if special c then ["\"%char; c] else [c]
  | Dot => lit "."
  | Space => lit "\s"
  | Cls items => lit "[" ++ concat (map show_item items) ++ lit "]"
  | WordB => lit "\b"
  | Bol => lit "^"
  | Eol => lit "$"
  | Seq r1 r2 => wrap (2 <=? lvl)%nat (show 1 r1 ++ show 1 r2)
  | Alt r1 r2 => wrap (1 <=? lvl)%nat (show 0 r1 ++ lit "|" ++ show 0 r2)
  | Group r1 => lit "(" ++ show 0 r1 ++ lit ")"
  | Star r1 => wrap (2 <=? lvl)%nat (show 2 r1 ++ lit "*")
  | StarLazy r1 => wrap (2 <=? lvl)%nat (show 2 r1 ++ lit "*?")
  | Plus r1 => wrap (2 <=? lvl)%nat (show 2 r1 ++ lit "+")
  end.

Definition pattern_text (r : regex) : str := show 0 r.

(** *** Character tests *)

(** [\w]: letters, digits and the underscore. *)
Definition is_word (c : ascii) : bool :=
  is_upper c || is_lower c || is_digit c
  || Ascii.eqb c "_".

Definition is_word_opt (o : option ascii) : bool :=
  match o with
  | Some c => is_word c
  | None => false
  end.

Definition is_newline (c : ascii) : bool :=
  Ascii.eqb c "010".

Definition eq_char (f : flags) (p c : ascii) : bool :=
  if IGNORECASE f
  then Ascii.eqb (lower_char p) (lower_char c)
  else Ascii.eqb p c.

Definition in_item (f : flags) (i : item) (c : ascii) : bool :=
  match i with
  | Single p => eq_char f p c
  | Range lo hi =>
      in_range lo hi c
      || (IGNORECASE f && (in_range lo hi (lower_char c)
                           || in_range lo hi (upper_char c)))
  end.

Definition in_class (f : flags) (items : list item) (c : ascii) : bool :=
  existsb (fun i => in_item f i c) items.

(** *** The matcher

    [run f r prev s k]: [r] matches a prefix of [s], where [prev] is the
    character before [s] in the subject, and the continuation [k] accepts
    what is left. *)

Definition cont := option ascii -> str -> bool.

Definition one (ok : ascii -> bool) (s : str) (k : cont) : bool :=
  match s with
  | c :: s' => ok c && k (Some c) s'
  | [] => false
  end.

(** Repetition: an iteration that consumes nothing is not repeated, so
    [length s] iterations are enough. *)
Fixpoint iter (step : option ascii -> str -> cont -> bool) (n : nat)
    (prev : option ascii) (s : str) (k : cont) : bool :=
  k prev s
  || match n with
     | O => false
     | S n' =>
         step prev s
           (fun p' s' => (length s' <? length s)%nat && iter step n' p' s' k)
     end.

Fixpoint run (f : flags) (r : regex) (prev : option ascii) (s : str)
    (k : cont) : bool :=
  match r with
  | Eps => k prev s
  | Lit c => one (eq_char f c) s k
  | Dot => one (fun c => DOTALL f || negb (is_newline c)) s k
  | Space => one isspace s k
  | Cls items => one (in_class f items) s k
  | WordB => xorb (is_word_opt prev) (is_word_opt (head s)) && k prev s
  | Bol =>
      match prev with
      | None => k prev s
      | Some c => MULTILINE f && is_newline c && k prev s
      end
  | Eol =>
      match s with
      | [] => k prev s
      | c :: s' =>
          is_newline c
          && (match s' with [] => true | _ => MULTILINE f end)
          && k prev s
      end
  | Seq r1 r2 => run f r1 prev s (fun p' s' => run f r2 p' s' k)
  | Alt r1 r2 => run f r1 prev s k || run f r2 prev s k
  | Group r1 => run f r1 prev s k
  | Star r1 | StarLazy r1 => iter (run f r1) (length s) prev s k
  | Plus r1 =>
      run f r1 prev s (fun p' s' => iter (run f r1) (length s') p' s' k)
  end.

Definition accept : cont := fun _ _ => true.

(** A step that succeeds keeps succeeding under a more accepting
    continuation. *)
Definition monotone (step : option ascii -> str -> cont -> bool) : Prop :=
  forall p s (k1 k2 : cont),
    (forall p' s', k1 p' s' = true -> k2 p' s' = true) ->
    step p s k1 = true -> step p s k2 = true.

(** [re.match(pattern, s, flags)] is not [None]. *)
Definition re_match (f : flags) (r : regex) (s : str) : bool :=
  run f r None s accept.

Fixpoint search_from (f : flags) (r : regex) (prev : option ascii)
    (s : str) : bool :=
  run f r prev s accept
  || match s with
     | c :: s' => search_from f r (Some c) s'
     | [] => false
     end.

(** [re.search(pattern, s, flags)] is not [None]. *)
Definition re_search (f : flags) (r : regex) (s : str) : bool :=
  search_from f r None s.

(** The character before the position reached after [w], when [prev] was
    the character before [w]. *)
Definition prev_after (w : str) (prev : option ascii) : option ascii :=
  fold_left (fun _ c => Some c) w prev.

(** *** What a match is

    [Matches f r prev s prev' s']: [r] matches the prefix of [s] that ends
    where [s'] starts. *)

Inductive Matches (f : flags) : regex -> option ascii -> str ->
                                option ascii -> str -> Prop :=
| MEps p s : Matches f Eps p s p s
| MLit c p a s : eq_char f c a = true -> Matches f (Lit c) p (a :: s) (Some a) s
| MDot p a s :
    DOTALL f || negb (is_newline a) = true ->
    Matches f Dot p (a :: s) (Some a) s
| MSpace p a s : isspace a = true -> Matches f Space p (a :: s) (Some a) s
| MCls items p a s :
    in_class f items a = true -> Matches f (Cls items) p (a :: s) (Some a) s
| MWordB p s :
    is_word_opt p <> is_word_opt (head s) -> Matches f WordB p s p s
| MBolStart s : Matches f Bol None s None s
| MBolLine c s :
    MULTILINE f = true -> is_newline c = true ->
    Matches f Bol (Some c) s (Some c) s
| MEolEnd p : Matches f Eol p [] p []
| MEolLast p c : is_newline c = true -> Matches f Eol p [c] p [c]
| MEolLine p c s :
    MULTILINE f = true -> is_newline c = true ->
    Matches f Eol p (c :: s) p (c :: s)
| MSeq r1 r2 p s p1 s1 p2 s2 :
    Matches f r1 p s p1 s1 -> Matches f r2 p1 s1 p2 s2 ->
    Matches f (Seq r1 r2) p s p2 s2
| MAltL r1 r2 p s p' s' :
    Matches f r1 p s p' s' -> Matches f (Alt r1 r2) p s p' s'
| MAltR r1 r2 p s p' s' :
    Matches f r2 p s p' s' -> Matches f (Alt r1 r2) p s p' s'
| MGroup r p s p' s' : Matches f r p s p' s' -> Matches f (Group r) p s p' s'
| MStarNil r p s : Matches f (Star r) p s p s
| MStarCons r p s p1 s1 p2 s2 :
    Matches f r p s p1 s1 -> Matches f (Star r) p1 s1 p2 s2 ->
    Matches f (Star r) p s p2 s2
| MStarLazy r p s p' s' :
    Matches f (Star r) p s p' s' -> Matches f (StarLazy r) p s p' s'
| MPlus r p s p1 s1 p2 s2 :
    Matches f r p s p1 s1 -> Matches f (Star r) p1 s1 p2 s2 ->
    Matches f (Plus r) p s p2 s2.

End Re.

(** ** [class SecurityValidator] *)

Module SecurityValidator.
Import Py Re.

Definition words (ws : list string) : regex := Group (alts (map word ws)).

Definition rest : regex := Star Dot.

(** Dangerous SQL patterns (lines 136-148). *)
Definition BLOCKED_PATTERNS : list regex :=
  [ seqs [WordB;
          words ["INSERT"; "UPDATE"; "DELETE"; "DROP"; "CREATE"; "ALTER";
                 "TRUNCATE"; "GRANT"; "REVOKE"]%string;
          WordB];
    seqs [WordB; words ["EXEC"; "EXECUTE"; "SP_"; "XP_"]%string; WordB];
    seqs [word "--"; rest];
    seqs [Lit "/"; Lit "*"; StarLazy Dot; Lit "*"; Lit "/"];
    seqs [Lit ";"; rest];
    seqs [WordB; word "UNION"; WordB; rest; WordB; word "SELECT"; WordB];
    seqs [WordB; words ["WAITFOR"; "DELAY"]%string; WordB];
    seqs [WordB;
          Group (Alt (word "LOAD_FILE")
                     (seqs [word "INTO"; Plus Space; word "OUTFILE"]));
          WordB];
    seqs [WordB;
          Group (alts [word "DBMS_"; word "UTL_";
                       seqs [word "SYS"; Lit "."]]);
          WordB];
    seqs [WordB; words ["DUAL"]%string; WordB; rest; WordB;
          Group (seqs [word "CONNECT"; Plus Space; word "BY"]); WordB];
    seqs [WordB; words ["CHR"; "ASCII"; "SUBSTR"]%string; WordB; rest;
          WordB; words ["SELECT"]%string; WordB] ].

(** Additional Oracle-specific patterns (lines 151-158). *)
Definition ORACLE_SPECIFIC_BLOCKS : list regex :=
  [ seqs [WordB; words ["DBMS_XMLQUERY"; "DBMS_XMLGEN"; "EXTRACTVALUE"]%string;
          WordB];
    seqs [WordB; words ["SYS_CONTEXT"; "USERENV"]%string; WordB];
    seqs [WordB; words ["DBMS_PIPE"; "DBMS_LOCK"]%string; WordB];
    seqs [WordB; words ["JAVA_CALL"; "DBMS_JAVA"]%string; WordB];
    seqs [WordB; words ["UTL_HTTP"; "UTL_FILE"; "UTL_TCP"]%string; WordB];
    seqs [WordB; words ["DBMS_EXPORT_EXTENSION"]%string; WordB] ].

(** [re.IGNORECASE | re.MULTILINE | re.DOTALL] *)
Definition blocked_flags : flags := Flags true true true.

(** [re.IGNORECASE] *)
Definition concat_flags : flags := Flags true false false.

Definition no_flags : flags := Flags false false false.

Definition squote : ascii := "'".
Definition dquote : ascii := "034".

Definition spaces : regex := Star Space.

(** Suspicious string concatenation patterns (lines 220-224). *)
Definition concat_patterns : list regex :=
  [ seqs [Lit squote; spaces; Lit "|"; Lit "|"; spaces; Lit squote];
    seqs [Lit squote; spaces; Lit "+"; spaces; Lit squote];
    seqs [Lit dquote; spaces; Lit "|"; Lit "|"; spaces; Lit dquote] ].

(** Query complexity checks (lines 203-208): count, limit, message. *)
Definition complexity_checks (query : str) : list (Z * Z * str) :=
  [ (Z.of_nat (count query (lit "(")), 15, lit "Too many parentheses");
    (Z.of_nat (count query (lit "SELECT")), 8,
      lit "Too many SELECT statements");
    (Z.of_nat (count query (lit "JOIN")), 10, lit "Too many JOIN operations");
    (len query, 5000, lit "Query too long") ]%Z.

(** The truth value of a string. *)
Definition truthy (s : str) : bool :=
  match s with
  | [] => false
  | _ :: _ => true
  end.

(** [validate_query] (lines 160-237); the verdict is the pair the source
    returns. *)
Definition validate_query (query : str) : bool * str :=
  if negb (truthy query) || negb (truthy (strip query)) then
    (false, lit "Query cannot be empty")
  else
    let query_upper := upper (strip query) in
    if negb (startswith query_upper (lit "SELECT")) then
      (false, lit "Only SELECT queries are allowed")
    else
      let all_patterns := BLOCKED_PATTERNS ++ ORACLE_SPECIFIC_BLOCKS in
      match
        find (fun pattern => re_search blocked_flags pattern query_upper)
          all_patterns
      with
      | Some pattern =>
          (false, lit "Query contains blocked pattern: " ++ pattern_text pattern)
      | None =>
          match
            find (fun '(count, limit, _) => (count >? limit)%Z)
              (complexity_checks query)
          with
          | Some (_, _, message) =>
              (false, lit "Query too complex: " ++ message)
          | None =>
              if existsb (fun pattern => re_search concat_flags pattern query)
                   concat_patterns
              then (false, lit "Query contains suspicious string concatenation")
              else (true, lit "Query validated successfully")
          end
      end.

(** The Oracle identifier pattern of line 265. *)
Definition identifier : regex :=
  seqs [Bol;
        Cls [Range "A" "Z"; Range "a" "z"; Single "_"];
        Star (Cls [Range "A" "Z"; Range "a" "z"; Range "0" "9";
                   Single "_"; Single "#"; Single "$"]);
        Eol].

Definition reserved_words : list str :=
  map lit ["SYS"; "SYSTEM"; "DUAL"; "USER"; "ALL_TABLES"; "DBA_TABLES";
           "V$SESSION"; "V$DATABASE"; "GV$"; "X$"]%string.

(** [validate_table_name] (lines 239-291). *)
Definition validate_table_name (table_name : str) : bool * str :=
  if negb (truthy table_name) || negb (truthy (strip table_name)) then
    (false, lit "Table name cannot be empty")
  else if negb (re_match no_flags identifier table_name) then
    (false, lit "Invalid table name format")
  else if (len table_name >? 128)%Z then
    (false, lit "Table name too long")
  else
    let table_upper := upper table_name in
    match find (fun reserved => contains reserved table_upper) reserved_words with
    | Some reserved =>
        (false, lit "Table name contains reserved word: " ++ reserved)
    | None => (true, lit "Table name validated successfully")
    end.

End SecurityValidator.

(** ** [class RateLimiter] *)

Module RateLimiter.
Import Py.

(** *** Exceptions

    A subscript or a [del] on a missing key raises [KeyError]. *)

Inductive exn := KeyError (key : str).

Inductive result (A : Type) :=
| Ok (a : A)
| Raise (e : exn).

Arguments Ok {A} a.
Arguments Raise {A} e.

Definition bind {A B : Type} (m : result A) (k : A -> result B) : result B :=
  match m with
  | Ok a => k a
  | Raise e => Raise e
  end.

Notation "'raising' x <- m 'in' k" := (bind m (fun x => k))
  (at level 10, x name, m at level 100, k at level 200).

(** [d[key]] *)
Definition getitem {V : Type} (d : gmap str V) (key : str) : result V :=
  match d !! key with
  | Some v => Ok v
  | None => Raise (KeyError key)
  end.

(** [del d[key]] *)
Definition delitem {V : Type} (d : gmap str V) (key : str)
  : result (gmap str V) :=
  match d !! key with
  | Some _ => Ok (delete key d)
  | None => Raise (KeyError key)
  end.

(** [key in d] *)
Definition member {V : Type} (key : str) (d : gmap str V) : bool :=
  match d !! key with
  | Some _ => true
  | None => false
  end.

(** *** State *)

(** The value of [self.requests[client_id]]:
    [{'count': int, 'first_request': float, 'last_request': float}]. *)
Record window := Window {
  count : Z;
  first_request : Z;
  last_request : Z
}.

Record t := Limiter {
  max_requests : Z;
  window_seconds : Z;
  requests : gmap str window;
  blocked_clients : gmap str Z
}.

(** [RateLimiter.__init__] (lines 310-314). *)
Definition init (max_requests window_seconds : Z) : t :=
  Limiter max_requests window_seconds ∅ ∅.

Definition default : t := init 100 60.

Definition set_requests (self : t) (r : gmap str window) : t :=
  Limiter (max_requests self) (window_seconds self) r (blocked_clients self).

Definition set_blocked_clients (self : t) (b : gmap str Z) : t :=
  Limiter (max_requests self) (window_seconds self) (requests self) b.

(** [window_seconds] on the scale of the clock. *)
Definition window_ticks (self : t) : Z := window_seconds self * hz.

(** *** Messages *)

Definition msg_still_blocked (remaining_time : Z) : str :=
  lit "Rate limit exceeded. Try again in " ++ str_of_int remaining_time
  ++ lit " seconds.".

Definition msg_exceeded (self : t) (remaining_time : Z) : str :=
  lit "Rate limit exceeded (" ++ str_of_int (max_requests self)
  ++ lit " requests per " ++ str_of_int (window_seconds self)
  ++ lit "s). Try again in " ++ str_of_int remaining_time ++ lit " seconds.".

Definition msg_allowed (self : t) (n : Z) : str :=
  lit "Request allowed (" ++ str_of_int n ++ lit "/"
  ++ str_of_int (max_requests self) ++ lit ")".

(** *** [is_allowed] (lines 316-395) *)

(** Lines 339-350: [inr] is the verdict returned while the client is still
    blocked; [inl] is the limiter with which the call goes on. *)
Definition check_blocked (self : t) (client_id : str) (now : Z)
  : result (t + bool * str) :=
  if member client_id (blocked_clients self) then
    raising until <- getitem (blocked_clients self) client_id in
    if (now <? until)%Z then
      raising until' <- getitem (blocked_clients self) client_id in
      let remaining_time := int_seconds (until' - now) in
      Ok (inr (false, msg_still_blocked remaining_time))
    else
      raising b <- delitem (blocked_clients self) client_id in
      Ok (inl (set_blocked_clients self b))
  else Ok (inl self).

(** Lines 352-356: the entries of the current window. *)
Definition clean_old (self : t) (now : Z) : t :=
  set_requests self
    (filter (fun kv => (now - first_request (snd kv) < window_ticks self)%Z)
       (requests self)).

(** Lines 358-395. [client_data] is the very object stored in
    [self.requests], so updating it updates the map. *)
Definition track (self : t) (client_id : str) (now : Z)
  : result (t * (bool * str)) :=
  if negb (member client_id (requests self)) then
    let self' :=
      set_requests self (<[client_id := Window 1 now now]> (requests self)) in
    Ok (self', (true, lit "Request allowed"))
  else
    raising client_data <- getitem (requests self) client_id in
    if (count client_data >=? max_requests self)%Z then
      let block_until := (first_request client_data + window_ticks self)%Z in
      let self' :=
        set_blocked_clients self
          (<[client_id := block_until]> (blocked_clients self)) in
      let remaining_time := int_seconds (block_until - now) in
      Ok (self', (false, msg_exceeded self remaining_time))
    else
      let client_data' :=
        Window (count client_data + 1) (first_request client_data) now in
      let self' :=
        set_requests self (<[client_id := client_data']> (requests self)) in
      Ok (self', (true, msg_allowed self (count client_data')))
  .

(** One call [self.is_allowed(client_id)] when the clock reads [now]: the
    limiter after the call and the returned pair, or the exception. *)
Definition is_allowed (self : t) (client_id : str) (now : Z)
  : result (t * (bool * str)) :=
  raising c <- check_blocked self client_id now in
  match c with
  | inr verdict => Ok (self, verdict)
  | inl self1 => track (clean_old self1 now) client_id now
  end.

(** *** One client's share of the state

    What [is_allowed] reads and writes for [client_id] is the client's
    entry in each of the two maps. *)

Definition view (self : t) (client_id : str) : option window * option Z :=
  (requests self !! client_id, blocked_clients self !! client_id).

(** A window entry seen at [now]: an entry whose window is over is
    swept. *)
Definition live (self : t) (now : Z) (w : option window) : option window :=
  match w with
  | Some e =>
      if decide (now - first_request e < window_ticks self)%Z
      then Some e else None
  | None => None
  end.

Definition client_track (self : t) (now : Z) (w : option window)
  : (option window * option Z) * (bool * str) :=
  match live self now w with
  | None => ((Some (Window 1 now now), None), (true, lit "Request allowed"))
  | Some e =>
      if (count e >=? max_requests self)%Z then
        let block_until := (first_request e + window_ticks self)%Z in
        ((Some e, Some block_until),
         (false, msg_exceeded self (int_seconds (block_until - now))))
      else
        ((Some (Window (count e + 1) (first_request e) now), None),
         (true, msg_allowed self (count e + 1)))
  end.

(** The call, on the client's own entries. *)
Definition client_step (self : t) (now : Z) (v : option window * option Z)
  : (option window * option Z) * (bool * str) :=
  match snd v with
  | Some until =>
      if (now <? until)%Z then
        (v, (false, msg_still_blocked (int_seconds (until - now))))
      else client_track self now (fst v)
  | None => client_track self now (fst v)
  end.

(** The configuration is never changed. *)
Definition same_config (self self' : t) : Prop :=
  max_requests self' = max_requests self
  /\ window_seconds self' = window_seconds self.

(** A call of [c] leaves the other clients' blocks alone and their window
    entries kept or swept. *)
Definition others_kept (self self' : t) (c : str) (now : Z) : Prop :=
  forall c', c' <> c ->
    blocked_clients self' !! c' = blocked_clients self !! c'
    /\ (requests self' !! c' = requests self !! c'
        \/ requests self' !! c' = live self now (requests self !! c')).

(** No block of the client is pending at [now]. *)
Definition unblocked (self : t) (client_id : str) (now : Z) : Prop :=
  forall b, blocked_clients self !! client_id = Some b -> (b <= now)%Z.

(** The four ways a call ends, with the caller's entries after it. *)
Inductive call_case (self : t) (c : str) (now : Z) (self' : t)
  : bool * str -> Prop :=
| StillBlocked until :
    blocked_clients self !! c = Some until -> (now < until)%Z ->
    requests self' !! c = requests self !! c ->
    blocked_clients self' !! c = Some until ->
    call_case self c now self'
      (false, msg_still_blocked (int_seconds (until - now)))
| NewWindow :
    unblocked self c now ->
    live self now (requests self !! c) = None ->
    requests self' !! c = Some (Window 1 now now) ->
    blocked_clients self' !! c = None ->
    call_case self c now self' (true, lit "Request allowed")
| LimitReached e :
    unblocked self c now ->
    live self now (requests self !! c) = Some e ->
    (max_requests self <= count e)%Z ->
    requests self' !! c = Some e ->
    blocked_clients self' !! c = Some (first_request e + window_ticks self)%Z ->
    call_case self c now self'
      (false,
       msg_exceeded self
         (int_seconds (first_request e + window_ticks self - now)))
| Counted e :
    unblocked self c now ->
    live self now (requests self !! c) = Some e ->
    (count e < max_requests self)%Z ->
    requests self' !! c = Some (Window (count e + 1) (first_request e) now) ->
    blocked_clients self' !! c = None ->
    call_case self c now self' (true, msg_allowed self (count e + 1)).

(** *** The state invariant *)

(** Every window entry has counted at least one and at most
    [max_requests] requests. *)
Definition counts_bounded (self : t) : Prop :=
  forall c e,
    requests self !! c = Some e -> (1 <= count e <= max_requests self)%Z.

(** A block ends one window after the start of the blocked client's
    window, as long as that window entry is kept. *)
Definition blocks_anchored (self : t) : Prop :=
  forall c b e,
    blocked_clients self !! c = Some b -> requests self !! c = Some e ->
    b = (first_request e + window_ticks self)%Z.

Definition invariant (self : t) : Prop :=
  counts_bounded self /\ blocks_anchored self.

(** A sequence of calls [(client_id, now)], in the order they are made:
    the final limiter and the verdicts, in order. *)
Fixpoint run_calls (self : t) (calls : list (str * Z))
  : result (t * list (bool * str)) :=
  match calls with
  | [] => Ok (self, [])
  | (client_id, now) :: rest =>
      raising r <- is_allowed self client_id now in
      raising rs <- run_calls (fst r) rest in
      Ok (fst rs, snd r :: snd rs)
  end.






(** Two limiters that client [A] cannot tell apart from time [t0] on:
    the same configuration, the same block, and the same window entry at
    every later reading of the clock. *)
Definition agree (A : str) (t0 : Z) (s1 s2 : t) : Prop :=
  same_config s1 s2
  /\ blocked_clients s1 !! A = blocked_clients s2 !! A
  /\ forall now, (t0 <= now)%Z ->
       live s1 now (requests s1 !! A) = live s2 now (requests s2 !! A).

End RateLimiter.

(** ** The vocabulary of the specification *)

Module Spec.
Import Py Re.


(** The text of that pattern, line 137. *)
Definition dml_text : str :=
  lit "\b(INSERT|UPDATE|DELETE|DROP|CREATE|ALTER|TRUNCATE|GRANT|REVOKE)\b".


(** [q] contains [w], in any letter case. *)
Definition occurs_ci (w q : str) : Prop :=
  exists pre occ post, q = pre ++ occ ++ post /\ upper occ = w.

(** [q] starts with [w], in any letter case. *)
Definition starts_with_ci (w q : str) : Prop :=
  exists occ post, q = occ ++ post /\ upper occ = w.

Definition whitespace_only (q : str) : Prop :=
  Forall (fun c => isspace c = true) q.

(** [q] contains [sub]. *)
Definition occurs (sub q : str) : Prop :=
  exists pre post, q = pre ++ sub ++ post.

(** [re.match]: [r] matches [s] from its start. *)
Definition matches_from_start (f : flags) (r : regex) (s : str) : Prop :=
  exists p' s', Matches f r None s p' s'.

(** [q] holds two adjacent strings in [quote]s joined by the operator
    [op], with optional whitespace around the operator. *)
Definition joined_strings (quote : ascii) (op q : str) : Prop :=
  exists pre a w1 w2 b post,
    q = pre ++ [quote] ++ a ++ [quote] ++ w1 ++ op ++ w2
        ++ [quote] ++ b ++ [quote] ++ post
    /\ whitespace_only w1 /\ whitespace_only w2.

(** [q] passes the SELECT-prefix, blocked-pattern and complexity checks of
    [validate_query]. *)
Definition reaches_concat_check (q : str) : Prop :=
  strip q <> []
  /\ startswith (upper (strip q)) (lit "SELECT") = true
  /\ (forall pattern,
        In pattern
          (SecurityValidator.BLOCKED_PATTERNS
           ++ SecurityValidator.ORACLE_SPECIFIC_BLOCKS) ->
        re_search SecurityValidator.blocked_flags pattern (upper (strip q))
        = false)
  /\ (Z.of_nat (count q (lit "(")) <= 15)%Z
  /\ (Z.of_nat (count q (lit "SELECT")) <= 8)%Z
  /\ (Z.of_nat (count q (lit "JOIN")) <= 10)%Z
  /\ (len q <= 5000)%Z.

Definition concat_reason : str :=
  lit "Query contains suspicious string concatenation".

(** [SELECT 'a' || 'b' FROM t] and [SELECT "a" + "b" FROM t]. *)
Definition single_quoted_bars : str := lit "SELECT 'a' || 'b' FROM t".

Definition double_quoted_plus : str :=
  lit "SELECT " ++ [SecurityValidator.dquote] ++ lit "a"
  ++ [SecurityValidator.dquote] ++ lit " + " ++ [SecurityValidator.dquote]
  ++ lit "b" ++ [SecurityValidator.dquote] ++ lit " FROM t".

(** Nine SELECTs and eleven JOINs in lower case. *)
Definition nine_selects : str :=
  lit "select select select select select select select select select".

Definition eleven_joins : str :=
  lit "select a from t join t join t join t join t join t join t join t join t join t join t join t".



(** The verdicts of [is_allowed]. *)
Definition limiter_verdict (self : RateLimiter.t) (v : bool * str) : Prop :=
  v = (true, lit "Request allowed")
  \/ (exists n, v = (true, RateLimiter.msg_allowed self n))
  \/ (exists r, v = (false, RateLimiter.msg_exceeded self r))
  \/ (exists r, v = (false, RateLimiter.msg_still_blocked r)).

Definition accepted (v : bool * str) : Prop := fst v = true.

End Spec.

(** ** [RateLimiter.get_client_status] (lines 397-446) *)

Module ClientStatus.
Import Py RateLimiter.

(** The returned dict: [None] is a key the dict does not have. *)
Record status := Status {
  blocked : bool;
  remaining_block_time : option Z;
  requests_used : Z;
  requests_remaining : Z;
  window_reset_in : option Z
}.

(** Lines 419-427: the answer given while a block lasts, if any. *)
Definition status_blocked (self : t) (client_id : str) (now : Z)
  : result (option status) :=
  if member client_id (blocked_clients self) then
    raising until <- getitem (blocked_clients self) client_id in
    if (now <? until)%Z then
      raising until' <- getitem (blocked_clients self) client_id in
      Ok (Some (Status true (Some (int_seconds (until' - now)))
                  (max_requests self) 0 None))
    else Ok None
  else Ok None.

(** Lines 429-438: the answer given inside the client's window, if any. *)
Definition status_usage (self : t) (client_id : str) (now : Z)
  : result (option status) :=
  if member client_id (requests self) then
    raising client_data <- getitem (requests self) client_id in
    if (now - first_request client_data <? window_ticks self)%Z then
      Ok (Some (Status false None
                  (count client_data)
                  (Z.max 0 (max_requests self - count client_data))
                  (Some (int_seconds (first_request client_data
                                      + window_ticks self - now)))))
    else Ok None
  else Ok None.

(** [self.get_client_status(client_id)] when the clock reads [now]. *)
Definition get_client_status (self : t) (client_id : str) (now : Z)
  : result status :=
  raising b <- status_blocked self client_id now in
  match b with
  | Some st => Ok st
  | None =>
      raising u <- status_usage self client_id now in
      match u with
      | Some st => Ok st
      | None =>
          Ok (Status false None 0 (max_requests self)
                (Some (window_seconds self)))
      end
  end.

End ClientStatus.

(** ** The tools [query_oracle] and [describe_table], up to the database *)

Module Tools.
Import Py RateLimiter SecurityValidator.

(** What a tool does with a request: it answers with a text at once, or it
    goes to the database, [query_oracle] with the SQL text it executes and
    [describe_table] with the name it binds to [:table_name]. *)
Inductive outcome :=
| Respond (text : str)
| Execute (sql : str)
| Lookup (table_name : str).

(** Lines 862-871: the row limit; [inl] is the message of the
    [ValueError]. *)
Definition apply_row_limit (max_rows : Z) (query : str) (limit : Z)
  : str + str :=
  let limit := Z.min limit max_rows in
  if (limit <? 0)%Z then
    inl (lit "Invalid limit value: " ++ str_of_int limit
         ++ lit ". Must be a non-negative integer.")
  else if negb (contains (lit "ROWNUM") (upper query)) && (limit >? 0)%Z then
    inr (lit "SELECT * FROM (" ++ query ++ lit ") WHERE ROWNUM <= "
         ++ str_of_int limit)
  else inr query.

(** [query_oracle] (lines 786-944) until it opens the connection, for a
    loaded configuration with [db_config.max_rows = max_rows]. *)
Definition query_oracle (rate_limiter : t) (session_id : str) (max_rows : Z)
    (query : str) (limit : Z) (now : Z) : result (t * outcome) :=
  let client_id := session_id ++ lit "_query_oracle" in
  raising r <- is_allowed rate_limiter client_id now in
  let '(rate_limiter', (is_allowed, rate_limit_msg)) := r in
  if negb is_allowed then
    Ok (rate_limiter', Respond (lit "Error: " ++ rate_limit_msg))
  else
    let '(is_valid, validation_msg) := validate_query query in
    if negb is_valid then
      Ok (rate_limiter', Respond (lit "Security Error: " ++ validation_msg))
    else
      match apply_row_limit max_rows query limit with
      | inl e => Ok (rate_limiter', Respond (lit "Error: " ++ e))
      | inr query' => Ok (rate_limiter', Execute query')
      end.

(** [describe_table] (lines 947-1098) until it opens the connection. *)
Definition describe_table (rate_limiter : t) (session_id : str)
    (table_name : str) (now : Z) : result (t * outcome) :=
  let client_id := session_id ++ lit "_describe_table" in
  raising r <- is_allowed rate_limiter client_id now in
  let '(rate_limiter', (is_allowed, rate_limit_msg)) := r in
  if negb is_allowed then
    Ok (rate_limiter', Respond (lit "Error: " ++ rate_limit_msg))
  else
    let '(is_valid, validation_msg) := validate_table_name table_name in
    if negb is_valid then
      Ok (rate_limiter', Respond (lit "Security Error: " ++ validation_msg))
    else Ok (rate_limiter', Lookup table_name).

(** A request to one of the two tools. *)
Inductive request :=
| QueryOracle (query : str) (limit : Z)
| DescribeTable (table_name : str).

Definition is_query (rq : request * Z) : bool :=
  match fst rq with
  | QueryOracle _ _ => true
  | DescribeTable _ => false
  end.

Definition call_tool (rate_limiter : t) (session_id : str) (max_rows : Z)
    (rq : request) (now : Z) : result (t * outcome) :=
  match rq with
  | QueryOracle query limit =>
      query_oracle rate_limiter session_id max_rows query limit now
  | DescribeTable table_name =>
      describe_table rate_limiter session_id table_name now
  end.

(** The requests of one session, served in order on the one limiter of the
    process. *)
Fixpoint serve (rate_limiter : t) (session_id : str) (max_rows : Z)
    (requests : list (request * Z)) : result (t * list outcome) :=
  match requests with
  | [] => Ok (rate_limiter, [])
  | (rq, now) :: rest =>
      raising r <- call_tool rate_limiter session_id max_rows rq now in
      raising rs <- serve (fst r) session_id max_rows rest in
      Ok (fst rs, snd r :: snd rs)
  end.

(** The outcomes of the [query_oracle] requests among [outs], the outcomes
    of [requests]. *)
Fixpoint query_outcomes (requests : list (request * Z)) (outs : list outcome)
  : list outcome :=
  match requests, outs with
  | rq :: requests', o :: outs' =>
      if is_query rq
      then o :: query_outcomes requests' outs'
      else query_outcomes requests' outs'
  | _, _ => []
  end.

Fixpoint request_clock (t0 : Z) (requests : list (request * Z)) : Prop :=
  match requests with
  | [] => True
  | (_, now) :: rest => (t0 <= now)%Z /\ request_clock now rest
  end.

End Tools.

(** ** [config/security.py] *)

Module ConfigSecurity.
Import Py Re SecurityValidator.

(** [s.lower()] *)
Definition lower (s : str) : str := map lower_char s.

(** [SecureConfigLogger.SENSITIVE_PATTERNS] (lines 18-26). *)
Definition SENSITIVE_PATTERNS : list regex :=
  map word
    ["password"; "secret"; "key"; "token"; "credential"; "auth"; "pass"]%string.

Definition stars (n : nat) : str := repeat "*"%char n.

(** [SecureConfigLogger.mask_sensitive_value] (lines 28-58). *)
Definition mask_sensitive_value (key value : str) : str :=
  if negb (truthy value) then value
  else
    let key_lower := lower key in
    let is_sensitive :=
      existsb (fun pattern => re_search no_flags pattern key_lower)
        SENSITIVE_PATTERNS in
    if is_sensitive then
      if (len value <=? 4)%Z then stars (length value)
      else
        firstn 2 value ++ stars (length value - 4)
        ++ skipn (length value - 2) value
    else value.

(** The username pattern of line 215. *)
Definition username_pattern : regex :=
  seqs [Bol;
        Cls [Range "a" "z"; Range "A" "Z"];
        Star (Cls [Range "a" "z"; Range "A" "Z"; Range "0" "9"; Single "_"]);
        Eol].


End ConfigSecurity.

(** ** [config/sources.py] and [EnhancedConfigLoader.get_value_with_source] *)

Module ConfigSources.
Import Py.

(** [os.environ] *)
Abbreviation environ := (gmap str str) (only parsing).

(** [MCPConfigSource] (lines 34-66 of [sources.py]). *)
Definition mcp_get_value (env : environ) (key : str) : option str :=
  let mcp_key := lit "MCP_" ++ key in
  match env !! mcp_key with
  | Some mcp_value => Some mcp_value
  | None =>
      match env !! key with
      | Some env_value => Some env_value
      | None => None
      end
  end.

Definition mcp_is_available (env : environ) : bool :=
  (0 <? size env)%nat.

Definition mcp_source_name : str := lit "MCP Config Environment".

(** [DefaultSource] (lines 119-147). *)
Definition defaults : gmap str str :=
  list_to_map
    [ (lit "ORACLE_HOST", lit "localhost");
      (lit "ORACLE_PORT", lit "1521");
      (lit "ORACLE_SERVICE_NAME", lit "ORCL");
      (lit "CONNECTION_TIMEOUT", lit "30");
      (lit "QUERY_TIMEOUT", lit "300");
      (lit "MAX_ROWS", lit "1000");
      (lit "LOG_LEVEL", lit "INFO") ].

Definition default_get_value (key : str) : option str := defaults !! key.

Definition default_source_name : str := lit "Default Values".

(** A configuration source: availability, lookup and name. *)
Record source := Source {
  is_available : bool;
  get_value : str -> option str;
  get_source_name : str
}.

(** [self.config_sources] (lines 73-76 of [loader.py]), lowest precedence
    first. *)
Definition config_sources (env : environ) : list source :=
  [ Source true default_get_value default_source_name;
    Source (mcp_is_available env) (mcp_get_value env) mcp_source_name ].

(** The loop of lines 180-189, over the sources it is given. *)
Fixpoint first_value (sources : list source) (key : str)
  : option str * option str :=
  match sources with
  | [] => (None, None)
  | source :: rest =>
      if is_available source then
        match get_value source key with
        | Some value => (Some value, Some (get_source_name source))
        | None => first_value rest key
        end
      else first_value rest key
  end.

(** [EnhancedConfigLoader.get_value_with_source] (lines 177-192). *)
Definition get_value_with_source (env : environ) (key : str)
  : option str * option str :=
  first_value (rev (config_sources env)) key.

End ConfigSources.

(** ** The vocabulary of the further properties *)

Module Spec2.
Import Py Re RateLimiter SecurityValidator Tools ConfigSecurity.

(** The rate-limiter client of a request: the session and the tool. *)
Definition tool_client_id (session_id : str) (rq : request) : str :=
  match rq with
  | QueryOracle _ _ => session_id ++ lit "_query_oracle"
  | DescribeTable _ => session_id ++ lit "_describe_table"
  end.

(** What a tool makes of the verdict of the limiter. *)
Definition answer (max_rows : Z) (rq : request) (v : bool * str) : outcome :=
  if negb (fst v) then Respond (lit "Error: " ++ snd v)
  else
    match rq with
    | QueryOracle query limit =>
        if negb (fst (validate_query query)) then
          Respond (lit "Security Error: " ++ snd (validate_query query))
        else
          match apply_row_limit max_rows query limit with
          | inl e => Respond (lit "Error: " ++ e)
          | inr query' => Execute query'
          end
    | DescribeTable table_name =>
        if negb (fst (validate_table_name table_name)) then
          Respond (lit "Security Error: "
                   ++ snd (validate_table_name table_name))
        else Lookup table_name
    end.

(** The answer is a refusal of the rate limiter. *)
Definition rate_limited (o : outcome) : bool :=
  match o with
  | Respond text => startswith text (lit "Error: Rate limit exceeded")
  | _ => false
  end.




(** The words that make a configuration key sensitive; [password] holds
    [pass]. *)
Definition SENSITIVE_WORDS : list string :=
  ["secret"; "key"; "token"; "credential"; "auth"; "pass"]%string.

Definition sensitive_key (key : str) : Prop :=
  exists w, In w SENSITIVE_WORDS /\ Spec.occurs (lit w) (lower key).


End Spec2.

(** * Properties *)

(** ** The matcher finds exactly the matches *)

Section Matcher.
Import Py Re.
Variable f : flags.

Lemma one_monotone ok : monotone (fun _ s k => one ok s k).
Proof.
  intros p [|c s] k1 k2 Hk; simpl; [easy|].
  rewrite !andb_true_iff. intros [? ?]; auto.
Qed.

Lemma iter_monotone step n :
  monotone step -> monotone (iter step n).
Proof.
  intros Hstep. induction n as [|n IH]; intros p s k1 k2 Hk; simpl.
  - rewrite !orb_false_r. apply Hk.
  - rewrite !orb_true_iff. intros [H|H]; [left; auto|right].
    revert H. apply Hstep. intros p' s'. rewrite !andb_true_iff.
    intros [? ?]; split; [assumption|]. eapply IH; eauto.
Qed.

Lemma run_monotone r : monotone (run f r).
Proof.
  induction r; intros p s k1 k2 Hk; simpl;
    try (apply (one_monotone _ p s k1 k2 Hk)).
  - apply Hk.
  - rewrite !andb_true_iff. intros [? ?]; auto.
  - destruct p; [|apply Hk]. rewrite !andb_true_iff. intros [? ?]; auto.
  - destruct s; [apply Hk|]. rewrite !andb_true_iff. intros [? ?]; auto.
  - apply IHr1. intros p' s'. apply IHr2, Hk.
  - rewrite !orb_true_iff. intros [H|H]; [left|right]; revert H;
      [apply IHr1|apply IHr2]; assumption.
  - apply IHr, Hk.
  - apply iter_monotone; assumption.
  - apply iter_monotone; assumption.
  - apply IHr. intros p' s'. apply iter_monotone; assumption.
Qed.

Lemma iter_more_fuel step n m p s k :
  monotone step -> (n <= m)%nat ->
  iter step n p s k = true -> iter step m p s k = true.
Proof.
  intros Hstep. revert m p s. induction n as [|n IH]; intros m p s Hle; simpl.
  - rewrite orb_false_r. intros H. destruct m; simpl; rewrite H; reflexivity.
  - destruct m as [|m]; [lia|]. simpl. rewrite !orb_true_iff.
    intros [H|H]; [left; assumption|right]. revert H. apply Hstep.
    intros p' s'. rewrite !andb_true_iff. intros [? ?]; split; [assumption|].
    apply IH; [lia|assumption].
Qed.

(** A match consumes a prefix of the subject. *)
Lemma Matches_consumes r p s p' s' :
  Matches f r p s p' s' ->
  exists w, s = w ++ s' /\ p' = prev_after w p.
Proof.
  induction 1;
    try (exists []; split; reflexivity);
    try (exists [a]; split; reflexivity);
    try assumption.
  - destruct IHMatches1 as (w1 & -> & ->), IHMatches2 as (w2 & -> & ->).
    exists (w1 ++ w2). unfold prev_after.
    rewrite fold_left_app, <- app_assoc. split; reflexivity.
  - destruct IHMatches1 as (w1 & -> & ->), IHMatches2 as (w2 & -> & ->).
    exists (w1 ++ w2). unfold prev_after.
    rewrite fold_left_app, <- app_assoc. split; reflexivity.
  - destruct IHMatches1 as (w1 & -> & ->), IHMatches2 as (w2 & -> & ->).
    exists (w1 ++ w2). unfold prev_after.
    rewrite fold_left_app, <- app_assoc. split; reflexivity.
Qed.

Lemma Matches_no_progress r p s p' s' :
  Matches f r p s p' s' -> (length s <= length s')%nat -> p' = p /\ s' = s.
Proof.
  intros H Hlen. apply Matches_consumes in H as (w & -> & ->).
  rewrite length_app in Hlen. destruct w; [split; reflexivity|simpl in Hlen; lia].
Qed.

Lemma Matches_shorter r p s p' s' :
  Matches f r p s p' s' -> (length s' <= length s)%nat.
Proof.
  intros H. apply Matches_consumes in H as (w & -> & ->).
  rewrite length_app. lia.
Qed.

(** Completeness: a match whose end the continuation accepts is found. *)
Lemma run_complete r p s p' s' :
  Matches f r p s p' s' ->
  forall k : cont, k p' s' = true -> run f r p s k = true.
Proof.
  induction 1; intros k Hk; simpl;
    try (rewrite Hk; try rewrite H; try rewrite H0; reflexivity).
  - rewrite Hk, andb_true_r.
    destruct (is_word_opt p), (is_word_opt (head s)); simpl; congruence.
  - rewrite Hk, H0. destruct s; simpl; [reflexivity|].
    rewrite H, andb_true_r. reflexivity.
  - apply IHMatches1, IHMatches2, Hk.
  - rewrite IHMatches by assumption. reflexivity.
  - rewrite IHMatches by assumption. apply orb_true_r.
  - apply IHMatches, Hk.
  - destruct (length s); simpl; rewrite Hk; reflexivity.
  - destruct (Nat.le_gt_cases (length s) (length s1)) as [Hle|Hlt].
    + destruct (Matches_no_progress _ _ _ _ _ H Hle) as [-> ->].
      apply (IHMatches2 k Hk).
    + destruct (length s) as [|n] eqn:E; [lia|]. simpl.
      apply orb_true_iff; right. apply IHMatches1.
      apply andb_true_iff; split.
      * rewrite E. apply Nat.ltb_lt. assumption.
      * apply (iter_more_fuel _ (length s1)); [apply run_monotone|lia|].
        apply (IHMatches2 k Hk).
  - apply (IHMatches k Hk).
  - apply IHMatches1. apply (IHMatches2 k Hk).
Qed.

Lemma iter_sound step r n :
  (forall p s (k : cont), step p s k = true ->
     exists p' s', Matches f r p s p' s' /\ k p' s' = true) ->
  forall p s (k : cont), iter step n p s k = true ->
    exists p' s', Matches f (Star r) p s p' s' /\ k p' s' = true.
Proof.
  intros Hstep. induction n as [|n IH]; intros p s k; simpl.
  - rewrite orb_false_r. intros Hk. exists p, s. split; [constructor|assumption].
  - rewrite orb_true_iff. intros [Hk|H].
    + exists p, s. split; [constructor|assumption].
    + apply Hstep in H as (p1 & s1 & Hm & H).
      apply andb_true_iff in H as [_ H].
      apply IH in H as (p2 & s2 & Hm2 & Hk).
      exists p2, s2. split; [|assumption]. econstructor; eassumption.
Qed.

(** Soundness: what the matcher accepts is a match. *)
Lemma run_sound r :
  forall p s (k : cont), run f r p s k = true ->
    exists p' s', Matches f r p s p' s' /\ k p' s' = true.
Proof.
  induction r; intros p s k; simpl.
  - intros Hk. exists p, s. split; [constructor|assumption].
  - destruct s as [|a s]; simpl; [easy|]. rewrite andb_true_iff.
    intros [? ?]. exists (Some a), s. split; [constructor|]; assumption.
  - destruct s as [|a s]; simpl; [easy|]. rewrite andb_true_iff.
    intros [? ?]. exists (Some a), s. split; [constructor|]; assumption.
  - destruct s as [|a s]; simpl; [easy|]. rewrite andb_true_iff.
    intros [? ?]. exists (Some a), s. split; [constructor|]; assumption.
  - destruct s as [|a s]; simpl; [easy|]. rewrite andb_true_iff.
    intros [? ?]. exists (Some a), s. split; [constructor|]; assumption.
  - rewrite andb_true_iff. intros [Hx Hk]. exists p, s.
    split; [|assumption]. constructor.
    destruct (is_word_opt p), (is_word_opt (head s)); simpl in Hx; congruence.
  - destruct p as [c|].
    + rewrite !andb_true_iff. intros [[? ?] ?]. exists (Some c), s.
      split; [constructor|]; assumption.
    + intros Hk. exists None, s. split; [constructor|assumption].
  - destruct s as [|c s].
    + intros Hk. exists p, []. split; [constructor|assumption].
    + rewrite !andb_true_iff. intros [[? Hm] ?]. exists p, (c :: s).
      split; [|assumption]. destruct s; constructor; assumption.
  - intros H. apply IHr1 in H as (p1 & s1 & H1 & H).
    apply IHr2 in H as (p2 & s2 & H2 & Hk).
    exists p2, s2. split; [econstructor; eassumption|assumption].
  - rewrite orb_true_iff. intros [H|H].
    + apply IHr1 in H as (p1 & s1 & H1 & Hk). exists p1, s1.
      split; [apply MAltL|]; assumption.
    + apply IHr2 in H as (p1 & s1 & H1 & Hk). exists p1, s1.
      split; [apply MAltR|]; assumption.
  - intros H. apply IHr in H as (p1 & s1 & H1 & Hk). exists p1, s1.
    split; [constructor|]; assumption.
  - apply iter_sound, IHr.
  - intros H. apply (iter_sound _ r _ IHr) in H as (p1 & s1 & H1 & Hk).
    exists p1, s1. split; [constructor|]; assumption.
  - intros H. apply IHr in H as (p1 & s1 & H1 & H).
    apply (iter_sound _ r _ IHr) in H as (p2 & s2 & H2 & Hk).
    exists p2, s2. split; [econstructor; eassumption|assumption].
Qed.

Lemma search_from_complete r pre post prev p' s' :
  Matches f r (prev_after pre prev) post p' s' ->
  search_from f r prev (pre ++ post) = true.
Proof.
  revert prev. induction pre as [|c pre IH]; intros prev H; simpl in *.
  - destruct post; simpl; rewrite (run_complete _ _ _ _ _ H); reflexivity.
  - rewrite (IH _ H). apply orb_true_r.
Qed.

Lemma search_from_sound r s prev :
  search_from f r prev s = true ->
  exists pre post p' s',
    s = pre ++ post /\ Matches f r (prev_after pre prev) post p' s'.
Proof.
  revert prev. induction s as [|c s IH]; intros prev; simpl.
  - rewrite orb_false_r. intros H. apply run_sound in H as (p' & s' & H & _).
    exists [], [], p', s'. split; [reflexivity|assumption].
  - rewrite orb_true_iff. intros [H|H].
    + apply run_sound in H as (p' & s' & H & _).
      exists [], (c :: s), p', s'. split; [reflexivity|assumption].
    + apply IH in H as (pre & post & p' & s' & -> & H).
      exists (c :: pre), post, p', s'. split; [reflexivity|assumption].
Qed.

(** [re.search] succeeds exactly when the pattern matches somewhere. *)
Lemma re_search_spec r s :
  re_search f r s = true <->
  exists pre post p' s',
    s = pre ++ post /\ Matches f r (prev_after pre None) post p' s'.
Proof.
  split.
  - apply search_from_sound.
  - intros (pre & post & p' & s' & -> & H). eapply search_from_complete, H.
Qed.

(** [re.match] succeeds exactly when the pattern matches at the start. *)
Lemma re_match_spec r s :
  re_match f r s = true <-> exists p' s', Matches f r None s p' s'.
Proof.
  split.
  - intros H. apply run_sound in H as (p' & s' & H & _). eauto.
  - intros (p' & s' & H). apply (run_complete _ _ _ _ _ H). reflexivity.
Qed.

End Matcher.

(** ** Characters and strings *)

Section Strings.
Import Py Re.

Ltac each_char c := destruct c as [[] [] [] [] [] [] [] []]; reflexivity.



Lemma upper_char_idem c : upper_char (upper_char c) = upper_char c.
Proof. each_char c. Qed.

Lemma eq_char_refl f c : eq_char f c c = true.
Proof. unfold eq_char. destruct (IGNORECASE f); apply Ascii.eqb_refl. Qed.

Lemma startswith_app s p : startswith (p ++ s) p = true.
Proof. induction p; simpl; [reflexivity|]. rewrite Ascii.eqb_refl. assumption. Qed.

Lemma startswith_iff s p : startswith s p = true <-> exists t, s = p ++ t.
Proof.
  revert s. induction p as [|x p IH]; intros s; simpl.
  - split; [exists s; reflexivity|reflexivity].
  - destruct s as [|c s]; [split; [discriminate|intros [t Ht]; discriminate]|].
    rewrite andb_true_iff, IH. split.
    + intros [E [t ->]]. apply Ascii.eqb_eq in E as ->. exists t. reflexivity.
    + intros [t Ht]. injection Ht as -> ->. split; [apply Ascii.eqb_refl|eauto].
Qed.


Lemma rstrip_nonspace x post :
  isspace x = false -> rstrip (x :: post) = x :: rstrip post.
Proof. intros Hx. simpl. destruct (rstrip post); [rewrite Hx|]; reflexivity. Qed.














End Strings.

(** ** [validate_query] *)

Section ValidateQuery.
Import Py Re SecurityValidator Spec.

Lemma Matches_word f (w : string) p rest :
  w <> EmptyString ->
  Matches f (word w) p (lit w ++ rest) (prev_after (lit w) p) rest.
Proof.
  revert p. induction w as [|c w IH]; intros p Hne; [congruence|].
  destruct w as [|d w].
  - simpl. constructor. apply eq_char_refl.
  - change (word (String c (String d w))) with (Seq (Lit c) (word (String d w))).
    change (lit (String c (String d w)) ++ rest)
      with (c :: (lit (String d w) ++ rest)).
    econstructor.
    + constructor. apply eq_char_refl.
    + apply (IH (Some c)). discriminate.
Qed.






Lemma truthy_nonempty s : s <> [] -> truthy s = true.
Proof. destruct s; [congruence|reflexivity]. Qed.






Lemma truthy_false_iff s : truthy s = false <-> s = [].
Proof. destruct s; simpl; split; congruence. Qed.





(** C5. The query [SELECT DBMS_RANDOM.VALUE FROM t] starts with SELECT and
    holds the prefix DBMS_, and [validate_query] accepts it: the pattern
    for DBMS_, UTL_ and SYS. ends in a word boundary, which no package
    name after the prefix leaves. *)
Theorem validate_query_accepts_dbms_random :
  let q := lit "SELECT DBMS_RANDOM.VALUE FROM t" in
  starts_with_ci (lit "SELECT") (strip q)
  /\ occurs_ci (lit "DBMS_") q
  /\ validate_query q = (true, lit "Query validated successfully").
Proof.
  intros q. split; [|split].
  - exists (lit "SELECT"), (lit " DBMS_RANDOM.VALUE FROM t"). split; reflexivity.
  - exists (lit "SELECT "), (lit "DBMS_"), (lit "RANDOM.VALUE FROM t").
    split; reflexivity.
  - vm_compute. reflexivity.
Qed.

(** C6. Nine SELECTs, or eleven JOINs, written in lower case match no
    blocked pattern and exceed the bound once the text is upper-cased, yet
    [validate_query] accepts them: the occurrences are counted in the raw
    text, in upper case only.  Sixteen opening parentheses are rejected
    with "Too many parentheses". *)
Theorem validate_query_counts_raw_text :
  (8 < Z.of_nat (count (upper (strip nine_selects)) (lit "SELECT")))%Z
  /\ validate_query nine_selects = (true, lit "Query validated successfully")
  /\ (10 < Z.of_nat (count (upper (strip eleven_joins)) (lit "JOIN")))%Z
  /\ validate_query eleven_joins = (true, lit "Query validated successfully")
  /\ validate_query (lit "SELECT ((((((((((((((((1))))))))))))))))")
     = (false, lit "Query too complex: Too many parentheses").
Proof. repeat split; vm_compute; reflexivity. Qed.

Lemma Matches_spaces f w p rest :
  whitespace_only w ->
  Matches f spaces p (w ++ rest) (prev_after w p) rest.
Proof.
  intros H. revert p. induction H as [|c w Hc _ IH]; intros p.
  - apply MStarNil.
  - simpl. eapply MStarCons; [apply MSpace, Hc|apply IH].
Qed.

Lemma find_all_false {A} (P : A -> bool) l :
  (forall x, In x l -> P x = false) -> find P l = None.
Proof.
  induction l as [|x l IH]; intros H; simpl; [reflexivity|].
  rewrite (H x) by (left; reflexivity). apply IH. intros y Hy. apply H. right. assumption.
Qed.

(** Two joined strings leave, from the closing quote of the first to the
    opening quote of the second, a match of the pattern of their kind. *)
Ltac joined_search H quote :=
  destruct H as (pre & a & w1 & w2 & b & post & -> & H1 & H2);
  apply re_search_spec;
  exists (pre ++ [quote] ++ a); eexists; eexists;
  exists (b ++ [quote] ++ post);
  split; [rewrite <- !app_assoc; reflexivity|];
  simpl seqs;
  eapply MSeq; [apply MLit, eq_char_refl|];
  eapply MSeq; [apply Matches_spaces, H1|];
  simpl app;
  repeat (eapply MSeq; [apply MLit, eq_char_refl|]);
  eapply MSeq; [apply Matches_spaces, H2|];
  apply MLit, eq_char_refl.

Lemma joined_single_bars q :
  joined_strings squote (lit "||") q ->
  re_search concat_flags
    (seqs [Lit squote; spaces; Lit "|"; Lit "|"; spaces; Lit squote]) q = true.
Proof. intros H. joined_search H squote. Qed.

Lemma joined_single_plus q :
  joined_strings squote (lit "+") q ->
  re_search concat_flags
    (seqs [Lit squote; spaces; Lit "+"; spaces; Lit squote]) q = true.
Proof. intros H. joined_search H squote. Qed.

Lemma joined_double_bars q :
  joined_strings dquote (lit "||") q ->
  re_search concat_flags
    (seqs [Lit dquote; spaces; Lit "|"; Lit "|"; spaces; Lit dquote]) q = true.
Proof. intros H. joined_search H dquote. Qed.

(** C8, as the code has it. A query that passes the SELECT-prefix,
    blocked-pattern and complexity checks and holds two adjacent
    single-quoted strings joined by [||] or by [+], or two adjacent
    double-quoted strings joined by [||], is rejected with "Query contains
    suspicious string concatenation". *)
Theorem validate_query_rejects_concatenation (q : str) :
  reaches_concat_check q ->
  joined_strings squote (lit "||") q
  \/ joined_strings squote (lit "+") q
  \/ joined_strings dquote (lit "||") q ->
  validate_query q = (false, concat_reason).
Proof.
  intros (Hs & Hsel & Hblocked & Hpar & Hselects & Hjoins & Hlen) Hj.
  unfold validate_query.
  rewrite (truthy_nonempty (strip q) Hs).
  rewrite (truthy_nonempty q) by (intros ->; apply Hs; reflexivity).
  cbn [negb orb]. rewrite Hsel. cbn [negb].
  rewrite (find_all_false _ _ Hblocked).
  assert (Hc : find (fun '(count, limit, _) => (count >? limit)%Z)
                 (complexity_checks q) = None).
  { unfold complexity_checks. cbn [find].
    repeat match goal with
           | |- context [(?a >? ?b)%Z] =>
               replace (a >? b)%Z with false by (symmetry; rewrite Z.gtb_ltb; apply Z.ltb_ge; assumption)
           end.
    reflexivity. }
  rewrite Hc.
  assert (He : existsb (fun pattern => re_search concat_flags pattern q)
                 concat_patterns = true).
  { apply existsb_exists. unfold concat_patterns.
    destruct Hj as [H|[H|H]].
    - eexists. split; [left; reflexivity|]. apply joined_single_bars, H.
    - eexists. split; [right; left; reflexivity|]. apply joined_single_plus, H.
    - eexists. split; [right; right; left; reflexivity|].
      apply joined_double_bars, H. }
  rewrite He. reflexivity.
Qed.

Ltac reaches_check :=
  split; [discriminate|];
  split; [reflexivity|];
  split;
  [ intros pattern Hin;
    unfold BLOCKED_PATTERNS, ORACLE_SPECIFIC_BLOCKS in Hin; simpl in Hin;
    repeat (destruct Hin as [<-|Hin]; [vm_compute; reflexivity|]);
    destruct Hin
  | repeat split; vm_compute; discriminate ].

Lemma validate_query_rejects_concatenation_witness :
  validate_query single_quoted_bars = (false, concat_reason).
Proof.
  apply (validate_query_rejects_concatenation single_quoted_bars).
  - reaches_check.
  - left. exists (lit "SELECT "), (lit "a"), (lit " "), (lit " "), (lit "b"),
      (lit " FROM t").
    split; [reflexivity|]. split; repeat constructor.
Defined.

(** C8, as stated, fails: [SELECT "a" + "b" FROM t] passes the earlier
    checks, holds two double-quoted strings joined by [+], and is accepted. *)
Lemma validate_query_accepts_double_quoted_plus :
  ~ (forall q,
       reaches_concat_check q ->
       joined_strings squote (lit "||") q
       \/ joined_strings squote (lit "+") q
       \/ joined_strings dquote (lit "||") q
       \/ joined_strings dquote (lit "+") q ->
       validate_query q = (false, concat_reason)).
Proof.
  intros H. specialize (H double_quoted_plus).
  assert (E : validate_query double_quoted_plus
              = (true, lit "Query validated successfully"))
    by (vm_compute; reflexivity).
  rewrite E in H. enough (Hf : (true, lit "Query validated successfully")
                               = (false, concat_reason)) by discriminate Hf.
  apply H.
  - reaches_check.
  - right. right. right.
    exists (lit "SELECT "), (lit "a"), (lit " "), (lit " "), (lit "b"),
      (lit " FROM t").
    split; [reflexivity|]. split; repeat constructor.
Qed.

End ValidateQuery.

(** ** [validate_table_name] *)

Section ValidateTableName.
Import Py Re SecurityValidator Spec.

Lemma contains_iff sub s : contains sub s = true <-> occurs sub s.
Proof.
  unfold occurs. induction s as [|c s IH]; simpl.
  - rewrite orb_false_r, startswith_iff. split.
    + intros [t E]. exists [], t. assumption.
    + intros (pre & post & E). destruct pre; [eauto|discriminate].
  - rewrite orb_true_iff, startswith_iff, IH. split.
    + intros [[t E]|(pre & post & E)].
      * exists [], t. assumption.
      * exists (c :: pre), post. simpl. congruence.
    + intros (pre & post & E). destruct pre as [|d pre].
      * left. exists post. assumption.
      * right. injection E as -> ->. eauto.
Qed.

Lemma identifier_head_nonspace c :
  in_class no_flags [Range "A" "Z"; Range "a" "z"; Single "_"] c = true ->
  isspace c = false.
Proof.
  destruct c as [[] [] [] [] [] [] [] []]; intros H;
    try reflexivity; discriminate H.
Qed.

Lemma identifier_nonempty s :
  re_match no_flags identifier s = true -> strip s <> [].
Proof.
  unfold re_match, identifier. simpl seqs. destruct s as [|c t]; [discriminate|].
  cbn [run one]. intros H. apply andb_true_iff in H as [H _].
  apply identifier_head_nonspace in H. unfold strip. simpl lstrip. rewrite H.
  rewrite rstrip_nonspace by assumption. discriminate.
Qed.


Lemma Matches_star_class f items p s p' s' :
  Matches f (Star (Cls items)) p s p' s' <->
  exists body,
    s = body ++ s' /\ p' = prev_after body p
    /\ Forall (fun c => in_class f items c = true) body.
Proof.
  split.
  - remember (Star (Cls items)) as r eqn:Er. induction 1; try discriminate.
    + exists []. repeat split. constructor.
    + injection Er as ->. destruct (IHMatches2 eq_refl) as (body & -> & -> & Hb).
      inversion H; subst. exists (a :: body). repeat split.
      constructor; assumption.
  - intros (body & -> & -> & Hb). revert p.
    induction Hb as [|c body Hc _ IH]; intros p.
    + apply MStarNil.
    + simpl. eapply MStarCons; [apply MCls, Hc|apply IH].
Qed.

(** The names the identifier pattern matches: a letter or an underscore,
    then letters, digits, [_], [#] and [$], and then the end of the name
    or one last line feed, as [$] allows. *)
Lemma identifier_language s :
  matches_from_start no_flags identifier s <->
  exists c body nl,
    s = c :: body ++ nl
    /\ in_class no_flags [Range "A" "Z"; Range "a" "z"; Single "_"] c = true
    /\ Forall (fun c =>
         in_class no_flags
           [Range "A" "Z"; Range "a" "z"; Range "0" "9";
            Single "_"; Single "#"; Single "$"] c = true) body
    /\ (nl = [] \/ nl = ["010"%char]).
Proof.
  unfold matches_from_start, identifier. simpl seqs. split.
  - intros (p' & s' & H).
    repeat match goal with
           | M : Matches _ (Seq _ _) _ _ _ _ |- _ => inversion M; subst; clear M
           | M : Matches _ Bol _ _ _ _ |- _ => inversion M; subst; clear M
           | M : Matches _ (Cls [Range "A" "Z"; Range "a" "z"; Single "_"])
                   _ _ _ _ |- _ => inversion M; subst; clear M
           end.
    match goal with
    | M : Matches _ (Star _) _ _ _ _ |- _ =>
        apply Matches_star_class in M as (body & -> & -> & Hb)
    end.
    match goal with
    | M : Matches _ Eol _ _ _ _ |- _ => inversion M; subst; clear M
    end.
    + eexists _, body, []. repeat split; [assumption|assumption|left; reflexivity].
    + eexists _, body, [_]. repeat split; [assumption|assumption|right].
      match goal with E : is_newline _ = true |- _ =>
        apply Ascii.eqb_eq in E; subst end. reflexivity.
    + discriminate.
  - intros (c & body & nl & -> & Hc & Hb & Hnl).
    exists (prev_after body (Some c)), nl.
    eapply MSeq; [apply MBolStart|].
    eapply MSeq; [apply MCls, Hc|].
    eapply MSeq.
    + apply Matches_star_class. exists body. repeat split. assumption.
    + destruct Hnl as [->| ->]; [apply MEolEnd|apply MEolLast; reflexivity].
Qed.

End ValidateTableName.

(** ** [RateLimiter.is_allowed] *)

Section RateLimiterFacts.
Import Py RateLimiter.

Lemma lookup_clean_old self now c :
  requests (clean_old self now) !! c = live self now (requests self !! c).
Proof.
  unfold clean_old, live. simpl.
  destruct (requests self !! c) as [e|] eqn:E.
  - destruct (decide _) as [Hlt|Hge].
    + apply map_lookup_filter_Some. split; assumption.
    + apply map_lookup_filter_None. right. intros e' E'.
      rewrite E in E'. injection E' as <-. exact Hge.
  - apply map_lookup_filter_None. left. assumption.
Qed.

(** Lines 352-395, on the client's entries and on the others'. *)
Lemma track_step self c now :
  let r := client_track self now (requests self !! c) in
  exists self',
    track (clean_old self now) c now = Ok (self', snd r)
    /\ requests self' !! c = fst (fst r)
    /\ blocked_clients self' !! c
       = match snd (fst r) with
         | Some b => Some b
         | None => blocked_clients self !! c
         end
    /\ same_config self self'
    /\ forall c', c' <> c ->
         requests self' !! c' = live self now (requests self !! c')
         /\ blocked_clients self' !! c' = blocked_clients self !! c'.
Proof.
  intros r. subst r. unfold track, client_track, member, getitem.
  rewrite lookup_clean_old.
  destruct (live self now (requests self !! c)) as [e|] eqn:L; cbn [negb bind].
  - change (max_requests (clean_old self now)) with (max_requests self).
    change (window_ticks (clean_old self now)) with (window_ticks self).
    destruct (count e >=? max_requests self)%Z; eexists;
      (split; [reflexivity|]);
      cbn [fst snd set_requests set_blocked_clients requests blocked_clients].
    + rewrite lookup_clean_old, L, lookup_insert_eq.
      repeat split; try reflexivity.
      * apply lookup_clean_old.
      * apply lookup_insert_ne. congruence.
    + rewrite lookup_insert_eq. repeat split; try reflexivity.
      rewrite lookup_insert_ne by congruence. apply lookup_clean_old.
  - eexists. split; [reflexivity|].
    cbn [fst snd set_requests set_blocked_clients requests blocked_clients].
    rewrite lookup_insert_eq.
    repeat split; try reflexivity.
    rewrite lookup_insert_ne by congruence. apply lookup_clean_old.
Qed.

Lemma client_track_blocked self b now w :
  client_track (set_blocked_clients self b) now w = client_track self now w.
Proof. reflexivity. Qed.

Lemma live_blocked self b now w :
  live (set_blocked_clients self b) now w = live self now w.
Proof. reflexivity. Qed.

(** One call, on the caller's entries and on the others'. *)
Lemma is_allowed_step self c now :
  let r := client_step self now (view self c) in
  exists self',
    is_allowed self c now = Ok (self', snd r)
    /\ view self' c = fst r
    /\ same_config self self'
    /\ forall c', c' <> c ->
         blocked_clients self' !! c' = blocked_clients self !! c'
         /\ (requests self' !! c' = requests self !! c'
             \/ requests self' !! c' = live self now (requests self !! c')).
Proof.
  intros r. subst r.
  unfold is_allowed, check_blocked, client_step, view, member, getitem, delitem.
  cbn [fst snd].
  destruct (blocked_clients self !! c) as [until|] eqn:B; cbn [bind].
  - destruct (now <? until)%Z; cbn [bind].
    + exists self. rewrite B. repeat split; auto.
    + destruct (track_step (set_blocked_clients self (delete c (blocked_clients self))) c now)
        as (self' & E & Hr & Hb & Hc & Ho).
      rewrite client_track_blocked in E, Hr, Hb.
      cbn [set_blocked_clients requests blocked_clients] in *.
      exists self'. split; [exact E|].
      rewrite lookup_delete_eq in Hb.
      split; [|split; [exact Hc|]].
      * rewrite Hr, Hb. unfold client_track.
        destruct (live _ now (requests self !! c)); [|reflexivity].
        destruct (count w >=? max_requests self)%Z; reflexivity.
      * intros c' Hne. destruct (Ho c' Hne) as [Hr' Hb'].
        rewrite live_blocked in Hr'.
        rewrite lookup_delete_ne in Hb' by congruence. auto.
  - destruct (track_step self c now) as (self' & E & Hr & Hb & Hc & Ho).
    exists self'. split; [exact E|]. rewrite B in Hb.
    split; [|split; [exact Hc|]].
    + rewrite Hr, Hb. unfold client_track.
      destruct (live _ now (requests self !! c)); [|reflexivity].
      destruct (count w >=? max_requests self)%Z; reflexivity.
    + intros c' Hne. destruct (Ho c' Hne) as [Hr' Hb']. auto.
Qed.

Import Re SecurityValidator Spec.



Lemma client_step_verdict self now v :
  limiter_verdict self (snd (client_step self now v)).
Proof.
  unfold client_step, client_track, limiter_verdict.
  destruct (snd v) as [until|]; [destruct (now <? until)%Z|];
    try (cbn [snd]; right; right; right; eexists; reflexivity);
    (destruct (live self now (fst v)) as [e|];
     [destruct (count e >=? max_requests self)%Z|]; cbn [snd]; eauto).
Qed.


Lemma live_Some self now w e : live self now w = Some e -> w = Some e.
Proof.
  unfold live. destruct w as [e'|]; [|discriminate].
  destruct (decide _); [trivial|discriminate].
Qed.

Lemma live_Some_lt self now w e :
  live self now w = Some e -> (now - first_request e < window_ticks self)%Z.
Proof.
  unfold live. destruct w as [e'|]; [|discriminate].
  destruct (decide _); [|discriminate]. intros H. injection H as <-. assumption.
Qed.

Lemma live_keeps self now e :
  (now - first_request e < window_ticks self)%Z ->
  live self now (Some e) = Some e.
Proof. intros H. unfold live. destruct (decide _); [reflexivity|contradiction]. Qed.


(** Every call ends in one of the four ways and leaves the other clients'
    blocks alone and their window entries kept or swept. *)
Lemma is_allowed_cases self c now :
  exists self' v,
    is_allowed self c now = Ok (self', v)
    /\ call_case self c now self' v
    /\ same_config self self'
    /\ forall c', c' <> c ->
         blocked_clients self' !! c' = blocked_clients self !! c'
         /\ (requests self' !! c' = requests self !! c'
             \/ requests self' !! c' = live self now (requests self !! c')).
Proof.
  destruct (is_allowed_step self c now) as (self' & E & Hview & Hcfg & Hother).
  exists self', (snd (client_step self now (view self c))).
  split; [exact E|]. split; [|split; assumption].
  clear E Hother Hcfg. revert Hview.
  unfold client_step, client_track. unfold view at 2 3 4 5 6. cbn [fst snd].
  assert (Hun : forall u, blocked_clients self !! c = Some u ->
                  (now <? u)%Z = false -> unblocked self c now).
  { intros u B Hlt b Hb. rewrite B in Hb. injection Hb as <-.
    apply Z.ltb_ge. assumption. }
  assert (Hun' : blocked_clients self !! c = None -> unblocked self c now).
  { intros B b Hb. rewrite B in Hb. discriminate. }
  assert (Htrack :
    unblocked self c now ->
    view self' c = fst (client_track self now (requests self !! c)) ->
    call_case self c now self' (snd (client_track self now (requests self !! c)))).
  { intros U. unfold client_track.
    destruct (live self now (requests self !! c)) as [e|] eqn:L.
    - destruct (count e >=? max_requests self)%Z eqn:G; cbn [fst snd];
        intros Hv; injection Hv as Hr Hb.
      + apply LimitReached; try assumption.
        rewrite Z.geb_leb in G. apply Z.leb_le. assumption.
      + apply Counted; try assumption.
        rewrite Z.geb_leb in G. apply Z.leb_gt. assumption.
    - cbn [fst snd]. intros Hv. injection Hv as Hr Hb.
      apply NewWindow; assumption. }
  destruct (blocked_clients self !! c) as [u|] eqn:B.
  - destruct (now <? u)%Z eqn:Hlt.
    + cbn [fst snd]. intros Hv. injection Hv as Hr Hb.
      apply StillBlocked; try assumption. apply Z.ltb_lt. assumption.
    + apply Htrack. eapply Hun; eauto.
  - apply Htrack. apply Hun'. reflexivity.
Qed.

(** C4. For [max_requests = N >= 1] and [window_seconds = W >= 1] the
    invariant holds of a new limiter and after every [is_allowed] call:
    each window entry counts between 1 and [N] requests and each block ends
    at the start of the blocked client's window plus [W]. An entry that
    has reached [N] is never incremented: it is kept as it is, or swept and
    started anew by its client; the call of its client, while the window
    lasts and no block is pending, is refused and blocks the client. Each
    block the call leaves was there before or is the caller's, set to the
    start of the caller's window plus [W]. *)
Theorem is_allowed_preserves_invariant (N W : Z) :
  (1 <= N)%Z -> (1 <= W)%Z ->
  invariant (init N W)
  /\ forall self c now,
       max_requests self = N -> window_seconds self = W -> invariant self ->
       exists self' v,
         is_allowed self c now = Ok (self', v)
         /\ invariant self' /\ same_config self self'
         /\ (forall c' e e',
               requests self !! c' = Some e -> count e = N ->
               requests self' !! c' = Some e' ->
               e' = e \/ (c' = c /\ e' = Window 1 now now))
         /\ (forall e,
               requests self !! c = Some e -> count e = N ->
               (now - first_request e < W * hz)%Z ->
               unblocked self c now ->
               fst v = false
               /\ requests self' !! c = Some e
               /\ blocked_clients self' !! c
                  = Some (first_request e + W * hz)%Z)
         /\ (forall c' b,
               blocked_clients self' !! c' = Some b ->
               blocked_clients self !! c' = Some b
               \/ (c' = c /\ fst v = false
                   /\ exists e,
                        requests self !! c = Some e
                        /\ requests self' !! c = Some e
                        /\ count e = N
                        /\ b = (first_request e + W * hz)%Z)).
Proof.
  intros HN HW. split.
  { split; intros c; intros; unfold init in *; simpl in *;
      rewrite lookup_empty in *; discriminate. }
  intros self c now HmaxN HwinW [Hcount Hanchor].
  destruct (is_allowed_cases self c now) as (self' & v & E & Hcase & Hcfg & Hother).
  exists self', v. split; [exact E|].
  assert (Hticks : window_ticks self = (W * hz)%Z)
    by (unfold window_ticks; congruence).
  assert (Hticks' : window_ticks self' = (W * hz)%Z)
    by (unfold window_ticks; destruct Hcfg; congruence).
  assert (Hmax' : max_requests self' = N) by (destruct Hcfg; congruence).
  assert (Hreq_other : forall c' e', c' <> c ->
            requests self' !! c' = Some e' -> requests self !! c' = Some e').
  { intros c' e' Hne He'. destruct (Hother c' Hne) as [_ [H|H]];
      rewrite H in He'; [assumption|eapply live_Some; eassumption]. }
  assert (Hblk_other : forall c', c' <> c ->
            blocked_clients self' !! c' = blocked_clients self !! c').
  { intros c' Hne. apply Hother, Hne. }
  split; [|split; [exact Hcfg|]].
  - (* the invariant *)
    split.
    + intros c' e' He'. rewrite Hmax'. destruct (decide (c' = c)) as [->|Hne].
      * destruct Hcase as [u B Hlt Hr Hb|U L Hr Hb|e U L Hle Hr Hb|e U L Hlt Hr Hb];
          rewrite Hr in He'.
        -- rewrite <- HmaxN. eapply Hcount, He'.
        -- injection He' as <-. simpl. lia.
        -- injection He' as <-. rewrite <- HmaxN.
           eapply Hcount, live_Some, L.
        -- injection He' as <-. simpl.
           pose proof (Hcount c e (live_Some _ _ _ _ L)). lia.
      * rewrite <- HmaxN. eapply Hcount, Hreq_other; eassumption.
    + intros c' b e' Hb' He'. rewrite Hticks', <- Hticks.
      destruct (decide (c' = c)) as [->|Hne].
      * destruct Hcase as [u B Hlt Hr Hb|U L Hr Hb|e U L Hle Hr Hb|e U L Hlt Hr Hb];
          rewrite Hr in He'; rewrite Hb in Hb'; try discriminate.
        -- injection Hb' as <-. eapply Hanchor; eassumption.
        -- injection He' as <-. injection Hb' as <-. reflexivity.
      * rewrite Hblk_other in Hb' by assumption.
        eapply Hanchor; [eassumption|]. apply Hreq_other; assumption.
  - split; [|split].
    + (* an entry at [N] is not incremented *)
      intros c' e e' He Hn He'. destruct (decide (c' = c)) as [->|Hne].
      * destruct Hcase as [u B Hlt Hr Hb|U L Hr Hb|e1 U L Hle Hr Hb|e1 U L Hlt Hr Hb];
          rewrite Hr in He'.
        -- left. congruence.
        -- right. split; [reflexivity|congruence].
        -- left. apply live_Some in L. congruence.
        -- apply live_Some in L. rewrite He in L. injection L as <-. lia.
      * left. apply Hreq_other in He'; [congruence|assumption].
    + (* its client is blocked *)
      intros e He Hn Hw Hun.
      rewrite <- Hticks in *.
      destruct Hcase as [u B Hlt Hr Hb|U L Hr Hb|e1 U L Hle Hr Hb|e1 U L Hlt Hr Hb];
        rewrite He in *.
      * specialize (Hun u B). lia.
      * rewrite live_keeps in L by assumption. discriminate.
      * rewrite live_keeps in L by assumption. injection L as <-.
        repeat split; assumption.
      * rewrite live_keeps in L by assumption. injection L as <-. lia.
    + (* the blocks *)
      intros c' b Hb'. destruct (decide (c' = c)) as [->|Hne].
      * destruct Hcase as [u B Hlt Hr Hb|U L Hr Hb|e1 U L Hle Hr Hb|e1 U L Hlt Hr Hb];
          rewrite Hb in Hb'; try discriminate.
        -- left. congruence.
        -- right. injection Hb' as <-. split; [reflexivity|].
           split; [reflexivity|]. exists e1. apply live_Some in L.
           pose proof (Hcount c e1 L).
           repeat split; [assumption|assumption|lia|congruence].
      * left. rewrite <- Hblk_other; assumption.
Qed.

Lemma is_allowed_preserves_invariant_witness :
  invariant (init 3 60)
  /\ exists self' v,
       is_allowed (init 3 60) (lit "c1") 0 = Ok (self', v)
       /\ invariant self'.
Proof.
  destruct (is_allowed_preserves_invariant 3 60) as [Hinit Hstep]; [lia|lia|].
  split; [exact Hinit|].
  destruct (Hstep (init 3 60) (lit "c1") 0%Z eq_refl eq_refl Hinit)
    as (self' & v & E & Hinv & _).
  exists self', v. split; assumption.
Defined.

(** *** The four cases, from the caller's entries *)

Lemma call_still_blocked self c now u :
  blocked_clients self !! c = Some u -> (now < u)%Z ->
  exists self',
    is_allowed self c now
    = Ok (self', (false, msg_still_blocked (int_seconds (u - now))))
    /\ requests self' !! c = requests self !! c
    /\ blocked_clients self' !! c = Some u
    /\ same_config self self' /\ others_kept self self' c now.
Proof.
  intros B Hlt.
  destruct (is_allowed_cases self c now) as (self' & v & E & Hcase & Hcfg & Ho).
  exists self'.
  destruct Hcase as [u' B' Hlt' Hr Hb|U L Hr Hb|e U L Hle Hr Hb|e U L Hlt' Hr Hb];
    try (specialize (U u B); lia).
  rewrite B in B'. injection B' as <-. repeat (split; [assumption|]); exact Ho.
Qed.

Lemma call_new_window self c now :
  unblocked self c now -> live self now (requests self !! c) = None ->
  exists self',
    is_allowed self c now = Ok (self', (true, lit "Request allowed"))
    /\ requests self' !! c = Some (Window 1 now now)
    /\ blocked_clients self' !! c = None
    /\ same_config self self' /\ others_kept self self' c now.
Proof.
  intros U L.
  destruct (is_allowed_cases self c now) as (self' & v & E & Hcase & Hcfg & Ho).
  exists self'.
  destruct Hcase as [u' B' Hlt' Hr Hb|U' L' Hr Hb|e U' L' Hle Hr Hb|e U' L' Hlt' Hr Hb];
    try congruence.
  - specialize (U u' B'). lia.
  - repeat (split; [assumption|]); exact Ho.
Qed.

Lemma call_counted self c now e :
  unblocked self c now -> requests self !! c = Some e ->
  (now - first_request e < window_ticks self)%Z ->
  (count e < max_requests self)%Z ->
  exists self',
    is_allowed self c now = Ok (self', (true, msg_allowed self (count e + 1)))
    /\ requests self' !! c = Some (Window (count e + 1) (first_request e) now)
    /\ blocked_clients self' !! c = None
    /\ same_config self self' /\ others_kept self self' c now.
Proof.
  intros U R Hw Hc.
  destruct (is_allowed_cases self c now) as (self' & v & E & Hcase & Hcfg & Ho).
  exists self'.
  destruct Hcase as [u' B' Hlt' Hr Hb|U' L' Hr Hb|e' U' L' Hle Hr Hb|e' U' L' Hlt' Hr Hb];
    try (specialize (U u' B'); lia);
    rewrite R, live_keeps in L' by assumption; try discriminate;
    injection L' as <-; try lia.
  repeat (split; [assumption|]); exact Ho.
Qed.

Lemma call_limit_reached self c now e :
  unblocked self c now -> requests self !! c = Some e ->
  (now - first_request e < window_ticks self)%Z ->
  (max_requests self <= count e)%Z ->
  exists self',
    is_allowed self c now
    = Ok (self',
          (false,
           msg_exceeded self
             (int_seconds (first_request e + window_ticks self - now))))
    /\ requests self' !! c = Some e
    /\ blocked_clients self' !! c
       = Some (first_request e + window_ticks self)%Z
    /\ same_config self self' /\ others_kept self self' c now.
Proof.
  intros U R Hw Hc.
  destruct (is_allowed_cases self c now) as (self' & v & E & Hcase & Hcfg & Ho).
  exists self'.
  destruct Hcase as [u' B' Hlt' Hr Hb|U' L' Hr Hb|e' U' L' Hle Hr Hb|e' U' L' Hlt' Hr Hb];
    try (specialize (U u' B'); lia);
    rewrite R, live_keeps in L' by assumption; try discriminate;
    injection L' as <-; try lia.
  repeat (split; [assumption|]); exact Ho.
Qed.

Lemma unblocked_None self c now :
  blocked_clients self !! c = None -> unblocked self c now.
Proof. intros B b Hb. congruence. Qed.

Lemma same_config_trans a b c :
  same_config a b -> same_config b c -> same_config a c.
Proof. unfold same_config. intros [? ?] [? ?]. split; congruence. Qed.

Lemma same_config_refl a : same_config a a.
Proof. split; reflexivity. Qed.

Lemma window_ticks_config a b :
  same_config a b -> window_ticks b = window_ticks a.
Proof. intros [_ H]. unfold window_ticks. congruence. Qed.

Lemma run_calls_cons self c now rest self1 v self2 vs :
  is_allowed self c now = Ok (self1, v) ->
  run_calls self1 rest = Ok (self2, vs) ->
  run_calls self ((c, now) :: rest) = Ok (self2, v :: vs).
Proof. intros E1 E2. simpl. rewrite E1. cbn [bind fst snd]. rewrite E2. reflexivity. Qed.


(** While its block lasts a client is refused and its entries stay. *)
Lemma calls_while_blocked c u us :
  forall self,
    blocked_clients self !! c = Some u ->
    Forall (fun t => (t < u)%Z) us ->
    exists self' vs,
      run_calls self (map (pair c) us) = Ok (self', vs)
      /\ Forall (fun v => fst v = false) vs /\ length vs = length us
      /\ requests self' !! c = requests self !! c
      /\ blocked_clients self' !! c = Some u
      /\ same_config self self'.
Proof.
  induction us as [|t us IH]; intros self B Hu.
  - exists self, []. simpl. repeat split; auto.
  - inversion Hu as [|? ? Ht Hus]; subst.
    destruct (call_still_blocked self c t u B Ht) as (self1 & E & R1 & B1 & Hcfg & _).
    destruct (IH self1 B1 Hus) as (self2 & vs & E2 & Hall & Hlen & R2 & B2 & Hcfg2).
    eexists self2, (_ :: vs).
    split; [eapply run_calls_cons; eassumption|].
    split; [constructor; [reflexivity|assumption]|].
    split; [simpl; congruence|].
    split; [congruence|].
    split; [assumption|eapply same_config_trans; eassumption].
Qed.


Lemma hz_pos : (0 < hz)%Z.
Proof. reflexivity. Qed.



(** *** Clients do not see each other *)

Lemma live_config a b now w :
  same_config a b -> live b now w = live a now w.
Proof. intros H. unfold live. rewrite (window_ticks_config _ _ H). reflexivity. Qed.

Lemma live_live self now now' w :
  (now <= now')%Z -> live self now' (live self now w) = live self now' w.
Proof.
  intros Hle. unfold live. destruct w as [e|]; [|reflexivity].
  destruct (decide (now - _ < _)%Z); [reflexivity|].
  destruct (decide (now' - _ < _)%Z); [lia|reflexivity].
Qed.

Lemma client_track_agree s1 s2 now w1 w2 :
  same_config s1 s2 -> live s1 now w1 = live s2 now w2 ->
  client_track s1 now w1 = client_track s2 now w2.
Proof.
  intros Hc Hl. unfold client_track, msg_exceeded, msg_allowed.
  rewrite Hl, (window_ticks_config _ _ Hc).
  destruct Hc as [-> ->]. reflexivity.
Qed.

Lemma agree_refl A t0 self : agree A t0 self self.
Proof. split; [apply same_config_refl|]. split; reflexivity. Qed.

(** A call of another client keeps the agreement. *)
Lemma agree_other A t0 s1 s2 c now s1' v :
  agree A t0 s1 s2 -> c <> A -> (t0 <= now)%Z ->
  is_allowed s1 c now = Ok (s1', v) ->
  agree A now s1' s2.
Proof.
  intros (Hc & Hb & Hl) Hne Ht E.
  destruct (is_allowed_step s1 c now) as (s & E' & _ & Hcfg & Ho).
  rewrite E in E'. injection E' as <- _.
  destruct (Ho A (not_eq_sym Hne)) as [Hb' Hr'].
  assert (Hc' : same_config s1' s2).
  { destruct Hc, Hcfg. split; congruence. }
  split; [exact Hc'|]. split; [congruence|].
  intros now' Hle.
  assert (Hs : same_config s1 s1') by exact Hcfg.
  rewrite (live_config _ _ _ _ Hs).
  destruct Hr' as [-> | ->]; [|rewrite live_live by assumption]; apply Hl; lia.
Qed.

(** A call of the client itself gives the same verdict on both sides and
    keeps the agreement. *)
Lemma agree_own A t0 s1 s2 now :
  agree A t0 s1 s2 -> (t0 <= now)%Z ->
  exists s1' s2' v,
    is_allowed s1 A now = Ok (s1', v) /\ is_allowed s2 A now = Ok (s2', v)
    /\ agree A now s1' s2'.
Proof.
  intros (Hc & Hb & Hl) Ht.
  destruct (is_allowed_step s1 A now) as (s1' & E1 & V1 & C1 & _).
  destruct (is_allowed_step s2 A now) as (s2' & E2 & V2 & C2 & _).
  assert (Hc' : same_config s1' s2').
  { destruct Hc, C1, C2. split; congruence. }
  unfold client_step, view in *. cbn [fst snd] in *. rewrite <- Hb in *.
  assert (Htrack : client_track s1 now (requests s1 !! A)
                   = client_track s2 now (requests s2 !! A)).
  { apply client_track_agree; [assumption|]. apply Hl, Ht. }
  destruct (blocked_clients s1 !! A) as [u|] eqn:B1.
  - destruct (now <? u)%Z.
    + cbn [fst snd] in *. eexists s1', s2', _. split; [exact E1|]. split; [exact E2|].
      injection V1 as R1 B1'. injection V2 as R2 B2'.
      split; [exact Hc'|]. split; [congruence|].
      intros now' Hle. rewrite R1, R2.
      rewrite (live_config _ _ _ _ C1), (live_config _ _ _ _ C2).
      apply Hl. lia.
    + rewrite <- Htrack in *. eexists s1', s2', _.
      split; [exact E1|]. split; [exact E2|].
      split; [exact Hc'|].
      assert (Hv : (requests s1' !! A, blocked_clients s1' !! A)
                   = (requests s2' !! A, blocked_clients s2' !! A)) by congruence.
      injection Hv as R B. split; [assumption|].
      intros now' _. rewrite R. symmetry. apply live_config. exact Hc'.
  - rewrite <- Htrack in *. eexists s1', s2', _.
    split; [exact E1|]. split; [exact E2|].
    split; [exact Hc'|].
    assert (Hv : (requests s1' !! A, blocked_clients s1' !! A)
                 = (requests s2' !! A, blocked_clients s2' !! A)) by congruence.
    injection Hv as R B. split; [assumption|].
    intros now' _. rewrite R. symmetry. apply live_config. exact Hc'.
Qed.

Lemma agree_later A t0 t1 s1 s2 :
  agree A t0 s1 s2 -> (t0 <= t1)%Z -> agree A t1 s1 s2.
Proof.
  intros (Hc & Hb & Hl) Hle. split; [assumption|]. split; [assumption|].
  intros now Hn. apply Hl. lia.
Qed.






End RateLimiterFacts.

(** ** The pattern trees print as the patterns of the source *)

Section PatternTexts.
Import Py Re SecurityValidator.

Example BLOCKED_PATTERNS_text :
  map pattern_text BLOCKED_PATTERNS
  = map lit
      [ "\b(INSERT|UPDATE|DELETE|DROP|CREATE|ALTER|TRUNCATE|GRANT|REVOKE)\b";
        "\b(EXEC|EXECUTE|SP_|XP_)\b";
        "--.*";
        "/\*.*?\*/";
        ";.*";
        "\bUNION\b.*\bSELECT\b";
        "\b(WAITFOR|DELAY)\b";
        "\b(LOAD_FILE|INTO\s+OUTFILE)\b";
        "\b(DBMS_|UTL_|SYS\.)\b";
        "\b(DUAL)\b.*\b(CONNECT\s+BY)\b";
        "\b(CHR|ASCII|SUBSTR)\b.*\b(SELECT)\b" ]%string.
Proof. reflexivity. Qed.

Example ORACLE_SPECIFIC_BLOCKS_text :
  map pattern_text ORACLE_SPECIFIC_BLOCKS
  = map lit
      [ "\b(DBMS_XMLQUERY|DBMS_XMLGEN|EXTRACTVALUE)\b";
        "\b(SYS_CONTEXT|USERENV)\b";
        "\b(DBMS_PIPE|DBMS_LOCK)\b";
        "\b(JAVA_CALL|DBMS_JAVA)\b";
        "\b(UTL_HTTP|UTL_FILE|UTL_TCP)\b";
        "\b(DBMS_EXPORT_EXTENSION)\b" ]%string.
Proof. reflexivity. Qed.

Example concat_patterns_text :
  map pattern_text concat_patterns
  = [ lit "'\s*\|\|\s*'";
      lit "'\s*\+\s*'";
      [dquote] ++ lit "\s*\|\|\s*" ++ [dquote] ].
Proof. reflexivity. Qed.

Example identifier_text :
  pattern_text identifier = lit "^[A-Za-z_][A-Za-z0-9_#$]*$".
Proof. reflexivity. Qed.

Example dml_text_is_first :
  head (map pattern_text BLOCKED_PATTERNS) = Some Spec.dml_text.
Proof. reflexivity. Qed.

(** The scenarios of the test suite ([tests/test_main.py]). *)
Example valid_select_query :
  validate_query (lit "SELECT * FROM users")
  = (true, lit "Query validated successfully").
Proof. vm_compute. reflexivity. Qed.

Example blocked_insert_query :
  validate_query (lit "INSERT INTO users VALUES (1, 'test')")
  = (false, lit "Only SELECT queries are allowed").
Proof. vm_compute. reflexivity. Qed.

Example blocked_sql_injection :
  map (fun q => fst (validate_query (lit q)))
    [ "SELECT * FROM users; DROP TABLE users;";
      "SELECT * FROM users UNION SELECT * FROM passwords";
      "SELECT * FROM users -- comment";
      "SELECT * FROM users /* comment */" ]%string
  = [false; false; false; false].
Proof. vm_compute. reflexivity. Qed.

End PatternTexts.

(** * Further properties *)

(** ** [RateLimiter.get_client_status] and [is_allowed] *)

Section ClientStatusFacts.
Import Py RateLimiter ClientStatus.

Lemma status_when_blocked self c now u :
  blocked_clients self !! c = Some u -> (now < u)%Z ->
  get_client_status self c now
  = Ok (Status true (Some (int_seconds (u - now))) (max_requests self) 0 None).
Proof.
  intros B Hlt. unfold get_client_status, status_blocked, member, getitem.
  rewrite B. cbn [bind]. rewrite (proj2 (Z.ltb_lt _ _) Hlt). reflexivity.
Qed.

Lemma status_blocked_none self c now :
  unblocked self c now -> status_blocked self c now = Ok None.
Proof.
  intros U. unfold status_blocked, member, getitem.
  destruct (blocked_clients self !! c) as [u|] eqn:B; [|reflexivity].
  cbn [bind]. rewrite (proj2 (Z.ltb_ge _ _) (U u B)). reflexivity.
Qed.

Lemma status_when_live self c now e :
  unblocked self c now -> live self now (requests self !! c) = Some e ->
  get_client_status self c now
  = Ok (Status false None (count e)
          (Z.max 0 (max_requests self - count e))
          (Some (int_seconds (first_request e + window_ticks self - now)))).
Proof.
  intros U L. unfold get_client_status. rewrite (status_blocked_none _ _ _ U).
  cbn [bind]. unfold status_usage, member, getitem.
  pose proof (live_Some_lt _ _ _ _ L) as Hlt. apply live_Some in L. rewrite L.
  cbn [bind]. rewrite (proj2 (Z.ltb_lt _ _) Hlt). reflexivity.
Qed.

Lemma status_when_fresh self c now :
  unblocked self c now -> live self now (requests self !! c) = None ->
  get_client_status self c now
  = Ok (Status false None 0 (max_requests self) (Some (window_seconds self))).
Proof.
  intros U L. unfold get_client_status. rewrite (status_blocked_none _ _ _ U).
  cbn [bind]. unfold status_usage, member, getitem.
  destruct (requests self !! c) as [e|]; [|reflexivity]. cbn [bind].
  unfold live in L. destruct (decide _) as [|Hge]; [discriminate|].
  rewrite (proj2 (Z.ltb_ge _ _)) by lia. reflexivity.
Qed.

(** X1. With a quota of at least one request, [get_client_status] tells
    what [is_allowed] answers at the same reading of the clock: the call is
    allowed exactly when the status is not blocked and shows requests
    remaining. *)
Theorem status_predicts_is_allowed self c now :
  (1 <= max_requests self)%Z ->
  exists st self' v,
    get_client_status self c now = Ok st
    /\ is_allowed self c now = Ok (self', v)
    /\ (fst v = true <-> blocked st = false /\ (0 < requests_remaining st)%Z).
Proof.
  intros HN.
  destruct (is_allowed_cases self c now) as (self' & v & E & Hcase & _).
  destruct Hcase as [u B Hlt Hr Hb|U L Hr Hb|e U L Hle Hr Hb|e U L Hlt Hr Hb].
  - eexists _, self', _. split; [apply status_when_blocked; eassumption|].
    split; [exact E|]. simpl. intuition discriminate.
  - eexists _, self', _. split; [apply status_when_fresh; assumption|].
    split; [exact E|]. simpl. intuition lia.
  - eexists _, self', _. split; [apply status_when_live; eassumption|].
    split; [exact E|]. simpl. split; [discriminate|]. intros [_ H]. lia.
  - eexists _, self', _. split; [apply status_when_live; eassumption|].
    split; [exact E|]. simpl. split; [|reflexivity]. intros _. split; [reflexivity|lia].
Qed.

Lemma status_predicts_is_allowed_witness :
  exists st self' v,
    get_client_status (init 3 60) (lit "c1") 0 = Ok st
    /\ is_allowed (init 3 60) (lit "c1") 0 = Ok (self', v)
    /\ (fst v = true <-> blocked st = false /\ (0 < requests_remaining st)%Z).
Proof.
  apply (status_predicts_is_allowed (init 3 60) (lit "c1") 0). simpl. lia.
Defined.

(** X2. In a limiter whose window entries count at most [max_requests]
    requests, the requests the status reports as used and as remaining add
    up to the quota. *)
Theorem status_adds_up self c now st :
  counts_bounded self ->
  get_client_status self c now = Ok st ->
  (requests_used st + requests_remaining st = max_requests self)%Z.
Proof.
  intros Hc E.
  destruct (blocked_clients self !! c) as [u|] eqn:B.
  - destruct (Z.lt_ge_cases now u) as [Hlt|Hge].
    + rewrite (status_when_blocked _ _ _ _ B Hlt) in E. injection E as <-.
      simpl. lia.
    + assert (U : unblocked self c now).
      { intros b Hb. rewrite B in Hb. injection Hb as <-. assumption. }
      destruct (live self now (requests self !! c)) as [e|] eqn:L.
      * rewrite (status_when_live _ _ _ _ U L) in E. injection E as <-.
        simpl. pose proof (Hc c e (live_Some _ _ _ _ L)). lia.
      * rewrite (status_when_fresh _ _ _ U L) in E. injection E as <-.
        simpl. lia.
  - pose proof (unblocked_None self c now B) as U.
    destruct (live self now (requests self !! c)) as [e|] eqn:L.
    + rewrite (status_when_live _ _ _ _ U L) in E. injection E as <-.
      simpl. pose proof (Hc c e (live_Some _ _ _ _ L)). lia.
    + rewrite (status_when_fresh _ _ _ U L) in E. injection E as <-.
      simpl. lia.
Qed.

Lemma status_adds_up_witness :
  (requests_used (Status false None 0 3 (Some 60))
   + requests_remaining (Status false None 0 3 (Some 60))
   = max_requests (init 3 60))%Z.
Proof.
  apply (status_adds_up (init 3 60) (lit "c1") 0).
  - intros c e H. unfold init in H. simpl in H. rewrite lookup_empty in H.
    discriminate.
  - reflexivity.
Defined.

Lemma window_ticks_pos self :
  (1 <= window_seconds self)%Z -> (0 < window_ticks self)%Z.
Proof. intros H. unfold window_ticks. pose proof hz_pos. nia. Qed.



Lemma all_refused (vs : list (bool * str)) :
  Forall (fun v => fst v = false) vs ->
  map fst vs = repeat false (length vs).
Proof. induction 1 as [|v vs Hv _ IH]; simpl; [reflexivity|]. rewrite Hv, IH. reflexivity. Qed.

(** Inside its window a client is allowed until its entry has counted
    [max_requests] requests, and refused from then on. *)
Lemma calls_in_window c t1 ts :
  forall self e,
    requests self !! c = Some e -> first_request e = t1 ->
    blocked_clients self !! c = None ->
    Forall (fun t => (t - t1 < window_ticks self)%Z) ts ->
    exists self' vs,
      run_calls self (map (pair c) ts) = Ok (self', vs)
      /\ length vs = length ts
      /\ map fst vs
         = repeat true (min (length ts) (Z.to_nat (max_requests self - count e)))
           ++ repeat false
                (length ts - Z.to_nat (max_requests self - count e)).
Proof.
  induction ts as [|t ts IH]; intros self e R F B Hw.
  - exists self, []. repeat split; reflexivity.
  - inversion Hw as [|? ? Ht Hts]; subst.
    destruct (Z.lt_ge_cases (count e) (max_requests self)) as [Hlt|Hge].
    + destruct (call_counted self c t e) as (s1 & E & R1 & B1 & Hcfg & _);
        [apply unblocked_None, B|assumption|assumption|assumption|].
      destruct (IH s1 _ R1 eq_refl B1) as (s2 & vs & E2 & Hlen & Hvs).
      { rewrite (window_ticks_config _ _ Hcfg). assumption. }
      eexists s2, (_ :: vs). split; [eapply run_calls_cons; eassumption|].
      split; [simpl; congruence|].
      cbn [map fst count] in *. rewrite Hvs.
      destruct Hcfg as [-> _].
      replace (Z.to_nat (max_requests self - count e))
        with (S (Z.to_nat (max_requests self - (count e + 1)))) by lia.
      reflexivity.
    + destruct (call_limit_reached self c t e) as (s1 & E & R1 & B1 & Hcfg & _);
        [apply unblocked_None, B|assumption|assumption|assumption|].
      destruct (calls_while_blocked c _ ts s1 B1)
        as (s2 & vs & E2 & Hall & Hlen & _).
      { eapply Forall_impl; [exact Hts|]. simpl. intros x Hx. lia. }
      eexists s2, (_ :: vs). split; [eapply run_calls_cons; eassumption|].
      split; [simpl; congruence|].
      replace (Z.to_nat (max_requests self - count e)) with 0%nat by lia.
      cbn [map fst]. rewrite (all_refused _ Hall), Hlen.
      rewrite Nat.min_0_r. reflexivity.
Qed.

(** X4. However many calls a client without entry makes within one window,
    exactly the first [max_requests] are allowed and all later ones are
    refused; a quota below one still lets the call that opens the window
    through. *)
Theorem quota_is_never_exceeded self c t1 ts :
  requests self !! c = None -> blocked_clients self !! c = None ->
  Forall (fun t => (t - t1 < window_seconds self * hz)%Z) ts ->
  exists self' vs,
    run_calls self (map (pair c) (t1 :: ts)) = Ok (self', vs)
    /\ map fst vs
       = repeat true
           (min (length (t1 :: ts)) (Z.to_nat (Z.max 1 (max_requests self))))
         ++ repeat false
              (length (t1 :: ts) - Z.to_nat (Z.max 1 (max_requests self))).
Proof.
  intros R B Hw.
  destruct (call_new_window self c t1) as (sa & Ea & Ra & Ba & Hca & _);
    [apply unblocked_None, B|rewrite R; reflexivity|].
  destruct (calls_in_window c t1 ts sa _ Ra eq_refl Ba) as (s1 & vs & E1 & Hlen & Hvs).
  { rewrite (window_ticks_config _ _ Hca). assumption. }
  eexists s1, (_ :: vs). split; [simpl map; eapply run_calls_cons; eassumption|].
  cbn [map fst count] in *. rewrite Hvs. destruct Hca as [-> _].
  replace (Z.to_nat (Z.max 1 (max_requests self)))
    with (S (Z.to_nat (max_requests self - 1))) by lia.
  reflexivity.
Qed.

Lemma quota_is_never_exceeded_witness :
  exists self' vs,
    run_calls (init 2 60) (map (pair (lit "c1")) [0; 1; 2; 3]%Z) = Ok (self', vs)
    /\ map fst vs = [true; true; false; false].
Proof.
  apply (quota_is_never_exceeded (init 2 60) (lit "c1") 0 [1; 2; 3]%Z).
  - reflexivity.
  - reflexivity.
  - repeat constructor.
Defined.

(** X5. The calls a client makes while its block lasts are refused and
    leave the limiter exactly as it was: they neither extend the block nor
    sweep any entry. *)
Theorem blocked_calls_change_nothing self c u us :
  blocked_clients self !! c = Some u ->
  Forall (fun t => (t < u)%Z) us ->
  exists vs,
    run_calls self (map (pair c) us) = Ok (self, vs)
    /\ length vs = length us
    /\ Forall (fun v => fst v = false) vs.
Proof.
  intros B. induction 1 as [|t us Ht _ (vs & E & Hlen & Hall)].
  - exists []. repeat split. constructor.
  - assert (E1 : is_allowed self c t
                 = Ok (self, (false, msg_still_blocked (int_seconds (u - t))))).
    { unfold is_allowed, check_blocked, member, getitem. rewrite B. cbn [bind].
      rewrite (proj2 (Z.ltb_lt _ _) Ht). reflexivity. }
    eexists (_ :: vs). split; [eapply run_calls_cons; eassumption|].
    split; [simpl; congruence|]. constructor; [reflexivity|assumption].
Qed.

Lemma blocked_calls_change_nothing_witness :
  exists vs,
    run_calls (Limiter 1 60 ∅ {[ lit "c1" := 10%Z ]})
      (map (pair (lit "c1")) [1; 9]%Z)
    = Ok (Limiter 1 60 ∅ {[ lit "c1" := 10%Z ]}, vs)
    /\ length vs = 2%nat
    /\ Forall (fun v => fst v = false) vs.
Proof.
  apply (blocked_calls_change_nothing
           (Limiter 1 60 ∅ {[ lit "c1" := 10%Z ]}) (lit "c1") 10 [1; 9]%Z).
  - apply lookup_singleton_eq.
  - repeat constructor.
Defined.

(** X6. With a window of at least one second, a call that is not answered
    from a pending block leaves no window entry behind whose window is
    over: every entry, of any client, started less than [window_seconds]
    before the call. *)
Theorem sweep_leaves_live_entries self c now self' v :
  (1 <= window_seconds self)%Z ->
  unblocked self c now ->
  is_allowed self c now = Ok (self', v) ->
  forall c' e,
    requests self' !! c' = Some e ->
    (now - first_request e < window_seconds self * hz)%Z.
Proof.
  intros HW U E c' e He.
  pose proof (window_ticks_pos _ HW) as Hpos.
  change (window_seconds self * hz)%Z with (window_ticks self).
  destruct (decide (c' = c)) as [->|Hne].
  - destruct (is_allowed_cases self c now) as (s & v' & E' & Hcase & _).
    rewrite E in E'. injection E' as <- <-.
    destruct Hcase as [u B Hlt Hr Hb|U' L Hr Hb|e1 U' L Hle Hr Hb|e1 U' L Hlt Hr Hb];
      rewrite Hr in He.
    + specialize (U u B). lia.
    + injection He as <-. simpl. lia.
    + injection He as <-. eapply live_Some_lt, L.
    + injection He as <-. simpl. eapply live_Some_lt, L.
  - revert E. unfold is_allowed, check_blocked, member, getitem, delitem.
    destruct (blocked_clients self !! c) as [u|] eqn:B; cbn [bind].
    + rewrite (proj2 (Z.ltb_ge _ _) (U u B)). cbn [bind]. intros E.
      destruct (track_step (set_blocked_clients self (delete c (blocked_clients self))) c now)
        as (s & E' & _ & _ & _ & Ho).
      rewrite E in E'. injection E' as <- _.
      destruct (Ho c' Hne) as [Hr _]. rewrite Hr in He.
      apply live_Some_lt in He. exact He.
    + intros E. destruct (track_step self c now) as (s & E' & _ & _ & _ & Ho).
      rewrite E in E'. injection E' as <- _.
      destruct (Ho c' Hne) as [Hr _]. rewrite Hr in He.
      apply live_Some_lt in He. exact He.
Qed.

Lemma sweep_leaves_live_entries_witness :
  (0 - first_request (Window 1 0 0) < window_seconds (init 3 60) * hz)%Z.
Proof.
  apply (sweep_leaves_live_entries (init 3 60) (lit "c1") 0
           (Limiter 3 60 {[ lit "c1" := Window 1 0 0 ]} ∅)
           (true, lit "Request allowed")
         ltac:(simpl; lia)
         ltac:(apply unblocked_None; reflexivity)
         ltac:(vm_compute; reflexivity)
         (lit "c1")).
  apply lookup_singleton_eq.
Defined.

End ClientStatusFacts.

(** ** The tools and the limiter *)

Section ToolFacts.
Import Py Re RateLimiter SecurityValidator Tools Spec Spec2.

(** A tool asks the limiter first and answers from its verdict. *)
Lemma call_tool_answer rl sid mr rq now :
  call_tool rl sid mr rq now
  = bind (is_allowed rl (tool_client_id sid rq) now)
      (fun r => Ok (fst r, answer mr rq (snd r))).
Proof.
  destruct rq as [q l|n]; simpl; unfold query_oracle, describe_table, answer;
    destruct (is_allowed rl _ now) as [[rl' [b m]]|]; cbn [bind fst snd];
    try reflexivity; destruct b; cbn [negb]; try reflexivity.
  - destruct (validate_query q) as [[] ?]; cbn [negb fst snd]; [|reflexivity].
    destruct (apply_row_limit mr q l); reflexivity.
  - destruct (validate_table_name n) as [[] ?]; reflexivity.
Qed.

Lemma tool_clients_differ sid :
  sid ++ lit "_describe_table" <> sid ++ lit "_query_oracle".
Proof. intros H. apply app_inv_head in H. discriminate. Qed.

Lemma serve_cons rl sid mr rq now rest rl1 v rl2 outs :
  is_allowed rl (tool_client_id sid rq) now = Ok (rl1, v) ->
  serve rl1 sid mr rest = Ok (rl2, outs) ->
  serve rl sid mr ((rq, now) :: rest) = Ok (rl2, answer mr rq v :: outs).
Proof.
  intros E1 E2. simpl. rewrite call_tool_answer, E1. cbn [bind fst snd].
  rewrite E2. reflexivity.
Qed.

(** A refusal of the limiter starts with "Rate limit exceeded". *)
Lemma refusal_text self now v0 :
  fst (snd (client_step self now v0)) = false ->
  startswith (snd (snd (client_step self now v0))) (lit "Rate limit exceeded")
  = true.
Proof.
  destruct (client_step_verdict self now v0) as [E|[[n E]|[[r E]|[r E]]]];
    rewrite E; cbn [fst snd]; try discriminate; intros _;
    unfold msg_exceeded, msg_still_blocked.
  - change (lit "Rate limit exceeded (" ++ ?x)
      with (lit "Rate limit exceeded" ++ lit " (" ++ x).
    apply startswith_app.
  - change (lit "Rate limit exceeded. Try again in " ++ ?x)
      with (lit "Rate limit exceeded" ++ lit ". Try again in " ++ x).
    apply startswith_app.
Qed.

(** Serving requests is calling the limiter for their clients and
    answering from the verdicts. *)
Lemma serve_run_calls sid mr reqs :
  forall rl,
    exists rl' vs,
      run_calls rl (map (fun rq => (tool_client_id sid (fst rq), snd rq)) reqs)
      = Ok (rl', vs)
      /\ length vs = length reqs
      /\ Forall (fun v => fst v = false ->
                   startswith (snd v) (lit "Rate limit exceeded") = true) vs
      /\ serve rl sid mr reqs
         = Ok (rl', map (fun x => answer mr (fst (fst x)) (snd x))
                      (combine reqs vs)).
Proof.
  induction reqs as [|[rq now] reqs IH]; intros rl.
  - exists rl, []. repeat split; try reflexivity. constructor.
  - destruct (is_allowed_step rl (tool_client_id sid rq) now) as (rl1 & E1 & _).
    destruct (IH rl1) as (rl2 & vs & E2 & Hlen & Htext & E3).
    eexists rl2, (_ :: vs). cbn [map fst snd].
    split; [eapply run_calls_cons; eassumption|].
    split; [simpl; congruence|].
    split; [constructor; [apply refusal_text|assumption]|].
    erewrite serve_cons by eassumption. reflexivity.
Qed.

(** The calls a client without entry makes within one window: the first
    [max_requests], at least one, are allowed. *)
Lemma first_calls_of_window self c t1 ts :
  requests self !! c = None -> blocked_clients self !! c = None ->
  Forall (fun t => (t - t1 < window_seconds self * hz)%Z) ts ->
  exists self' vs,
    run_calls self (map (pair c) (t1 :: ts)) = Ok (self', vs)
    /\ length vs = length (t1 :: ts)
    /\ map fst vs
       = repeat true
           (min (length (t1 :: ts)) (Z.to_nat (Z.max 1 (max_requests self))))
         ++ repeat false
              (length (t1 :: ts) - Z.to_nat (Z.max 1 (max_requests self))).
Proof.
  intros R B Hw.
  destruct (call_new_window self c t1) as (sa & Ea & Ra & Ba & Hca & _);
    [apply unblocked_None, B|rewrite R; reflexivity|].
  destruct (calls_in_window c t1 ts sa _ Ra eq_refl Ba) as (s1 & vs & E1 & Hlen & Hvs).
  { rewrite (window_ticks_config _ _ Hca). assumption. }
  eexists s1, (_ :: vs). split; [simpl map; eapply run_calls_cons; eassumption|].
  split; [simpl; congruence|].
  cbn [map fst count] in *. rewrite Hvs. destruct Hca as [-> _].
  replace (Z.to_nat (Z.max 1 (max_requests self)))
    with (S (Z.to_nat (max_requests self - 1))) by lia.
  reflexivity.
Qed.

Lemma rate_limited_answer mr rq v :
  (fst v = false -> startswith (snd v) (lit "Rate limit exceeded") = true) ->
  rate_limited (answer mr rq v) = negb (fst v).
Proof.
  unfold answer. destruct v as [[] m]; cbn [fst snd negb]; intros H.
  - destruct rq as [q l|n].
    + destruct (negb (fst (validate_query q))); [reflexivity|].
      unfold apply_row_limit. destruct (_ <? 0)%Z; [reflexivity|].
      destruct (_ && _); reflexivity.
    + destruct (negb (fst (validate_table_name n))); reflexivity.
  - unfold rate_limited.
    change (lit "Error: Rate limit exceeded")
      with (lit "Error: " ++ lit "Rate limit exceeded").
    specialize (H eq_refl). apply startswith_iff in H as [t ->].
    rewrite app_assoc. apply startswith_app.
Qed.

Lemma map_negb_repeat a b :
  map negb (repeat true a ++ repeat false b) = repeat false a ++ repeat true b.
Proof.
  rewrite map_app. f_equal; [induction a|induction b]; simpl; congruence.
Qed.

(** X7. Every [query_oracle] request uses up one request of the quota,
    whether its query is valid or not: of the requests a session without
    entry makes within one window, the first [max_requests] (at least one)
    get past the limiter and all later ones are answered with the
    rate-limit error, whatever their queries and limits. *)
Theorem invalid_queries_use_up_the_quota rl sid mr reqs t1 ts :
  requests rl !! (sid ++ lit "_query_oracle") = None ->
  blocked_clients rl !! (sid ++ lit "_query_oracle") = None ->
  forallb is_query reqs = true ->
  map snd reqs = t1 :: ts ->
  Forall (fun t => (t - t1 < window_seconds rl * hz)%Z) ts ->
  exists rl' outs,
    serve rl sid mr reqs = Ok (rl', outs)
    /\ map rate_limited outs
       = repeat false
           (min (length reqs) (Z.to_nat (Z.max 1 (max_requests rl))))
         ++ repeat true
              (length reqs - Z.to_nat (Z.max 1 (max_requests rl))).
Proof.
  intros R B Hq Ht Hw.
  destruct (serve_run_calls sid mr reqs rl) as (rl' & vs & E & Hlen & Htext & Es).
  assert (Hcalls : map (fun rq => (tool_client_id sid (fst rq), snd rq)) reqs
                   = map (pair (sid ++ lit "_query_oracle")) (map snd reqs)).
  { clear -Hq. induction reqs as [|[[q l|n] now] reqs IH]; simpl in *;
      [reflexivity| |discriminate]. f_equal. apply IH, Hq. }
  rewrite Hcalls, Ht in E.
  destruct (first_calls_of_window rl _ t1 ts R B Hw) as (rl2 & vs2 & E2 & Hlen2 & Hvs).
  assert (Eq : Ok (rl2, vs2) = Ok (rl', vs))
    by (rewrite <- E, <- E2; reflexivity).
  injection Eq as -> ->.
  eexists rl', _. split; [exact Es|].
  assert (Hm : map rate_limited
                 (map (fun x => answer mr (fst (fst x)) (snd x)) (combine reqs vs))
               = map negb (map fst vs)).
  { clear -Hlen Htext. revert vs Hlen Htext.
    induction reqs as [|rq reqs IH]; intros [|v vs] Hlen Htext;
      try discriminate; [reflexivity|].
    inversion Htext; subst. simpl. rewrite rate_limited_answer by assumption.
    f_equal. apply IH; [simpl in Hlen; congruence|assumption]. }
  rewrite Hm, Hvs, map_negb_repeat.
  assert (Hl : length (t1 :: ts) = length reqs)
    by (rewrite <- Ht; apply length_map).
  rewrite Hl. reflexivity.
Qed.

Lemma invalid_queries_use_up_the_quota_witness :
  exists rl' outs,
    serve (init 1 60) (lit "s") 1000
      [ (QueryOracle (lit "DROP TABLE t") 10, 0%Z);
        (QueryOracle (lit "SELECT 1 FROM t") 10, 1%Z) ]
    = Ok (rl', outs)
    /\ map rate_limited outs = [false; true].
Proof.
  destruct (invalid_queries_use_up_the_quota (init 1 60) (lit "s") 1000
              [ (QueryOracle (lit "DROP TABLE t") 10, 0%Z);
                (QueryOracle (lit "SELECT 1 FROM t") 10, 1%Z) ] 0 [1%Z])
    as (rl' & outs & E & H).
  - reflexivity.
  - reflexivity.
  - reflexivity.
  - reflexivity.
  - repeat constructor.
  - exists rl', outs. split; [exact E|exact H].
Defined.

(** X8. What [query_oracle] sends to the database passed [validate_query],
    and it is the query itself only if the limit, cut to [max_rows], is
    zero or the query mentions ROWNUM in some letter case; otherwise it is
    the query wrapped in a ROWNUM bound of at least one and at most
    [max_rows] rows. *)
Theorem executed_sql_is_validated_and_bounded rl sid mr q l now rl' sql :
  query_oracle rl sid mr q l now = Ok (rl', Execute sql) ->
  accepted (validate_query q)
  /\ ((sql = q
       /\ (Z.min l mr = 0%Z \/ occurs (lit "ROWNUM") (upper q)))
      \/ (sql = lit "SELECT * FROM (" ++ q ++ lit ") WHERE ROWNUM <= "
                ++ str_of_int (Z.min l mr)
          /\ (1 <= Z.min l mr <= mr)%Z
          /\ ~ occurs (lit "ROWNUM") (upper q))).
Proof.
  unfold query_oracle.
  destruct (is_allowed rl _ now) as [[rl1 [[] m]]|]; cbn [bind negb];
    try discriminate.
  unfold accepted. destruct (validate_query q) as [[] m']; cbn [negb fst];
    try discriminate.
  unfold apply_row_limit.
  destruct (Z.min l mr <? 0)%Z eqn:Hneg; [discriminate|].
  apply Z.ltb_ge in Hneg.
  destruct (contains (lit "ROWNUM") (upper q)) eqn:Hc; cbn [negb andb].
  - intros E. injection E as _ <-. split; [reflexivity|]. left.
    split; [reflexivity|]. right. apply contains_iff, Hc.
  - destruct (Z.min l mr >? 0)%Z eqn:Hpos; intros E; injection E as _ <-;
      (split; [reflexivity|]).
    + right. split; [reflexivity|]. rewrite Z.gtb_ltb in Hpos.
      apply Z.ltb_lt in Hpos. split; [lia|].
      intros Ho. apply contains_iff in Ho. congruence.
    + left. split; [reflexivity|]. left. rewrite Z.gtb_ltb in Hpos.
      apply Z.ltb_ge in Hpos. lia.
Qed.

Lemma executed_sql_is_validated_and_bounded_witness :
  accepted (validate_query (lit "SELECT a FROM t"))
  /\ ((lit "SELECT a FROM t" = lit "SELECT a FROM t"
       /\ (Z.min 0 1000 = 0%Z
           \/ occurs (lit "ROWNUM") (upper (lit "SELECT a FROM t"))))
      \/ (lit "SELECT a FROM t"
          = lit "SELECT * FROM (" ++ lit "SELECT a FROM t"
            ++ lit ") WHERE ROWNUM <= " ++ str_of_int (Z.min 0 1000)
          /\ (1 <= Z.min 0 1000 <= 1000)%Z
          /\ ~ occurs (lit "ROWNUM") (upper (lit "SELECT a FROM t")))).
Proof.
  apply (executed_sql_is_validated_and_bounded (init 3 60) (lit "s") 1000
           (lit "SELECT a FROM t") 0 0
           (Limiter 3 60 {[ lit "s_query_oracle" := Window 1 0 0 ]} ∅)).
  vm_compute. reflexivity.
Defined.

Lemma serve_agree sid mr reqs :
  forall t0 s1 s2,
    agree (sid ++ lit "_query_oracle") t0 s1 s2 -> request_clock t0 reqs ->
    exists s1' outs1 s2' outs2,
      serve s1 sid mr reqs = Ok (s1', outs1)
      /\ serve s2 sid mr (List.filter is_query reqs) = Ok (s2', outs2)
      /\ length outs1 = length reqs
      /\ query_outcomes reqs outs1 = outs2.
Proof.
  induction reqs as [|[rq now] reqs IH]; intros t0 s1 s2 Ha Hclock.
  - exists s1, [], s2, []. repeat split; reflexivity.
  - destruct Hclock as [Ht Hclock]. destruct rq as [q l|n].
    + destruct (agree_own _ t0 s1 s2 now Ha Ht) as (s1' & s2' & v & E1 & E2 & Ha').
      destruct (IH now s1' s2' Ha' Hclock)
        as (s1'' & outs1 & s2'' & outs2 & R1 & R2 & Hlen & Ho).
      eexists s1'', (_ :: outs1), s2'', (_ :: outs2).
      split; [eapply (serve_cons s1 sid mr (QueryOracle q l)); eassumption|].
      split; [simpl List.filter;
              eapply (serve_cons s2 sid mr (QueryOracle q l)); eassumption|].
      split; [simpl; congruence|]. simpl. congruence.
    + destruct (is_allowed_step s1 (sid ++ lit "_describe_table") now)
        as (s1' & E1 & _).
      pose proof (agree_other _ t0 s1 s2 _ now s1' _ Ha
                    (tool_clients_differ sid) Ht E1) as Ha'.
      destruct (IH now s1' s2 Ha' Hclock)
        as (s1'' & outs1 & s2'' & outs2 & R1 & R2 & Hlen & Ho).
      eexists s1'', (_ :: outs1), s2'', outs2.
      split; [eapply (serve_cons s1 sid mr (DescribeTable n)); eassumption|].
      split; [exact R2|]. split; [simpl; congruence|exact Ho].
Qed.

(** X9. The two tools of a session have separate quotas: when the clock
    does not run backwards, the answers to the [query_oracle] requests of a
    session are the ones they get with every [describe_table] request
    removed. *)
Theorem tools_have_separate_quotas rl sid mr reqs t0 :
  request_clock t0 reqs ->
  exists rl1 outs1 rl2 outs2,
    serve rl sid mr reqs = Ok (rl1, outs1)
    /\ serve rl sid mr (List.filter is_query reqs) = Ok (rl2, outs2)
    /\ length outs1 = length reqs
    /\ query_outcomes reqs outs1 = outs2.
Proof. intros H. eapply serve_agree; [apply agree_refl|exact H]. Qed.

Lemma tools_have_separate_quotas_witness :
  exists rl1 outs1 rl2 outs2,
    serve (init 1 60) (lit "s") 1000
      [ (DescribeTable (lit "t"), 0%Z);
        (QueryOracle (lit "SELECT a FROM t") 10, 1%Z) ]
    = Ok (rl1, outs1)
    /\ serve (init 1 60) (lit "s") 1000
         (List.filter is_query
            [ (DescribeTable (lit "t"), 0%Z);
              (QueryOracle (lit "SELECT a FROM t") 10, 1%Z) ])
       = Ok (rl2, outs2)
    /\ length outs1 = 2%nat
    /\ query_outcomes
         [ (DescribeTable (lit "t"), 0%Z);
           (QueryOracle (lit "SELECT a FROM t") 10, 1%Z) ] outs1
       = outs2.
Proof.
  apply (tools_have_separate_quotas (init 1 60) (lit "s") 1000
           [ (DescribeTable (lit "t"), 0%Z);
             (QueryOracle (lit "SELECT a FROM t") 10, 1%Z) ] 0).
  simpl. lia.
Defined.

(** X10. The only names [describe_table] looks up in the data dictionary
    are names [validate_table_name] accepts: at most 128 characters, a
    letter or an underscore first, then letters, digits, [_], [#] and [$]
    only, except that one line feed may end the name. *)
Theorem described_names_are_identifiers rl sid n now rl' name :
  describe_table rl sid n now = Ok (rl', Lookup name) ->
  name = n
  /\ accepted (validate_table_name n)
  /\ (len n <= 128)%Z
  /\ exists c body nl,
       n = c :: body ++ nl
       /\ in_class no_flags [Range "A" "Z"; Range "a" "z"; Single "_"] c = true
       /\ Forall (fun c =>
            in_class no_flags
              [Range "A" "Z"; Range "a" "z"; Range "0" "9";
               Single "_"; Single "#"; Single "$"] c = true) body
       /\ (nl = [] \/ nl = ["010"%char]).
Proof.
  unfold describe_table.
  destruct (is_allowed rl _ now) as [[rl1 [[] m]]|]; cbn [bind negb];
    try discriminate.
  unfold accepted.
  destruct (validate_table_name n) as [b m'] eqn:V.
  destruct b; cbn [negb fst]; [|discriminate].
  intros E. injection E as _ <-. split; [reflexivity|]. split; [reflexivity|].
  revert V. unfold validate_table_name.
  destruct (negb (truthy n) || negb (truthy (strip n))); [discriminate|].
  destruct (re_match no_flags identifier n) eqn:Hm; cbn [negb]; [|discriminate].
  destruct (len n >? 128)%Z eqn:Hl; [discriminate|]. intros _.
  split; [rewrite Z.gtb_ltb in Hl; apply Z.ltb_ge, Hl|].
  apply identifier_language, re_match_spec, Hm.
Qed.

Lemma described_names_are_identifiers_witness :
  lit "emp" = lit "emp" /\ accepted (validate_table_name (lit "emp")).
Proof.
  destruct (described_names_are_identifiers (init 3 60) (lit "s") (lit "emp") 0
              (Limiter 3 60 {[ lit "s_describe_table" := Window 1 0 0 ]} ∅)
              (lit "emp")) as (H1 & H2 & _).
  - vm_compute. reflexivity.
  - split; assumption.
Defined.

End ToolFacts.

(** ** More on [validate_query] and [validate_table_name] *)

Section ValidatorFacts.
Import Py Re SecurityValidator Spec Spec2.










Lemma occurs_snoc (r s : str) x :
  r <> [] -> ~ In x r -> occurs r (s ++ [x]) -> occurs r s.
Proof.
  intros Hr Hx (pre & post & E).
  destruct (@exists_last _ r Hr) as (r' & y & ->).
  destruct post as [|p post] using rev_ind.
  - rewrite app_nil_r, app_assoc in E. apply app_inj_tail in E as [_ ->].
    exfalso. apply Hx. apply in_or_app. right. left. reflexivity.
  - clear IHpost. rewrite !app_assoc in E. apply app_inj_tail in E as [-> _].
    exists pre, post. rewrite <- !app_assoc. reflexivity.
Qed.

(** What an accepted table name went through. *)
Lemma validate_table_name_accepted n :
  accepted (validate_table_name n) ->
  re_match no_flags identifier n = true
  /\ (len n <= 128)%Z
  /\ find (fun reserved => contains reserved (upper n)) reserved_words = None.
Proof.
  unfold accepted, validate_table_name.
  destruct (negb (truthy n) || negb (truthy (strip n)));
    [intros H; discriminate H|].
  destruct (re_match no_flags identifier n); cbn [negb];
    [|intros H; discriminate H].
  destruct (len n >? 128)%Z eqn:Hl; [intros H; discriminate H|].
  destruct (find _ reserved_words); [intros H; discriminate H|].
  intros _. split; [reflexivity|]. split; [|reflexivity].
  rewrite Z.gtb_ltb in Hl. apply Z.ltb_ge, Hl.
Qed.

(** X12. A line feed at the end of a table name goes unnoticed: when
    [validate_table_name] accepts a name of fewer than 128 characters that
    holds no line feed, it accepts the name followed by a line feed as
    well. *)
Theorem table_name_with_line_feed_is_accepted n :
  accepted (validate_table_name n) ->
  Forall (fun c => is_newline c = false) n ->
  (len n < 128)%Z ->
  accepted (validate_table_name (n ++ ["010"%char])).
Proof.
  intros Ha Hn Hl.
  apply validate_table_name_accepted in Ha as (Hm & _ & Hf).
  assert (Hm' : re_match no_flags identifier (n ++ ["010"%char]) = true).
  { apply re_match_spec, identifier_language.
    apply re_match_spec, identifier_language in Hm
      as (c & body & nl & -> & Hc & Hb & [->| ->]).
    - exists c, body, ["010"%char]. rewrite app_nil_r. repeat split; auto.
    - exfalso. inversion Hn as [|? ? _ Hn']; subst.
      apply Forall_app in Hn' as [_ Hn']. inversion Hn' as [|? ? Hx _].
      discriminate Hx. }
  pose proof (identifier_nonempty _ Hm') as Hs.
  unfold accepted, validate_table_name.
  rewrite (truthy_nonempty _ Hs).
  rewrite (truthy_nonempty (n ++ ["010"%char])) by (destruct n; discriminate).
  cbn [negb orb]. rewrite Hm'. cbn [negb].
  replace (len (n ++ ["010"%char]) >? 128)%Z with false.
  2:{ symmetry. rewrite Z.gtb_ltb. apply Z.ltb_ge. unfold len in *.
      rewrite length_app. simpl. lia. }
  rewrite find_all_false; [reflexivity|].
  intros r Hin. destruct (contains r (upper (n ++ ["010"%char]))) eqn:E;
    [|reflexivity].
  exfalso. apply contains_iff in E. unfold upper in E. rewrite map_app in E.
  apply occurs_snoc in E.
  - apply contains_iff in E. change (map upper_char n) with (upper n) in E.
    pose proof (find_none _ _ Hf r Hin) as Hr. cbv beta in Hr. congruence.
  - unfold reserved_words in Hin. simpl in Hin.
    repeat (destruct Hin as [<-|Hin]; [discriminate|]). destruct Hin.
  - unfold reserved_words in Hin. simpl in Hin.
    repeat (destruct Hin as [<-|Hin];
            [intros Hx; simpl in Hx; intuition discriminate|]).
    destruct Hin.
Qed.

Lemma table_name_with_line_feed_is_accepted_witness :
  accepted (validate_table_name (lit "employees" ++ ["010"%char])).
Proof.
  apply (table_name_with_line_feed_is_accepted (lit "employees")).
  - vm_compute. reflexivity.
  - repeat constructor.
  - vm_compute. reflexivity.
Defined.

End ValidatorFacts.

(** ** [config/security.py] and the configuration sources *)

Section ConfigFacts.
Import Py Re SecurityValidator Spec Spec2 ConfigSecurity ConfigSources.

Lemma length_stars n : length (stars n) = n.
Proof. apply repeat_length. Qed.

Lemma Matches_word_exact (w : string) :
  forall p s p' s',
    w <> EmptyString ->
    Matches no_flags (word w) p s p' s' -> s = lit w ++ s'.
Proof.
  induction w as [|c w IH]; intros p s p' s' Hne H; [congruence|].
  destruct w as [|d w].
  - simpl in H. inversion H; subst.
    match goal with E : eq_char _ _ _ = true |- _ =>
      apply Ascii.eqb_eq in E; subst end. reflexivity.
  - change (word (String c (String d w)))
      with (Seq (Lit c) (word (String d w))) in H.
    inversion H as [| | | | | | | | | | |? ? ? ? ? ? ? ? H1 H2| | | | | | |]; subst.
    inversion H1; subst.
    match goal with E : eq_char _ _ _ = true |- _ =>
      apply Ascii.eqb_eq in E; subst end.
    apply IH in H2; [|discriminate]. subst. reflexivity.
Qed.

(** Searching for a word is looking for it as a substring. *)
Lemma search_word_iff (w : string) s :
  w <> EmptyString ->
  re_search no_flags (word w) s = true <-> occurs (lit w) s.
Proof.
  intros Hne. rewrite re_search_spec. split.
  - intros (pre & post & p' & s' & -> & H).
    apply Matches_word_exact in H; [|assumption]. subst. exists pre, s'.
    reflexivity.
  - intros (pre & post & ->). eexists pre, _, _, post.
    split; [reflexivity|]. apply Matches_word, Hne.
Qed.

Lemma is_sensitive_iff key :
  existsb (fun pattern => re_search no_flags pattern (lower key))
    SENSITIVE_PATTERNS = true
  <-> sensitive_key key.
Proof.
  unfold sensitive_key, SENSITIVE_PATTERNS, SENSITIVE_WORDS.
  rewrite existsb_exists. split.
  - intros (r & Hin & Hs). apply in_map_iff in Hin as (w & <- & Hw).
    simpl in Hw.
    destruct Hw as [<-|Hw].
    { apply search_word_iff in Hs as (pre & post & E); [|discriminate].
      exists "pass"%string. split; [simpl; tauto|].
      exists pre, (lit "word" ++ post). rewrite E. reflexivity. }
    exists w. split.
    + simpl. tauto.
    + apply search_word_iff; [|assumption].
      repeat (destruct Hw as [<-|Hw]; [discriminate|]). destruct Hw.
  - intros (w & Hw & Ho). exists (word w). split.
    + apply in_map. simpl in Hw |- *. tauto.
    + apply search_word_iff; [|assumption].
      simpl in Hw. repeat (destruct Hw as [<-|Hw]; [discriminate|]). destruct Hw.
Qed.

(** X13. Masking keeps the length of the value, and masking a masked value
    changes nothing more. *)
Theorem mask_keeps_length key value :
  length (mask_sensitive_value key value) = length value
  /\ mask_sensitive_value key (mask_sensitive_value key value)
     = mask_sensitive_value key value.
Proof.
  unfold mask_sensitive_value. cbv zeta.
  destruct value as [|c value]; [split; reflexivity|].
  cbn [truthy negb].
  destruct (existsb _ SENSITIVE_PATTERNS) eqn:Hs.
  2:{ split; reflexivity. }
  set (v := c :: value). unfold len.
  destruct (Z.of_nat (length v) <=? 4)%Z eqn:Hl.
  - rewrite length_stars. split; [reflexivity|].
    assert (Ht : truthy (stars (length v)) = true) by reflexivity.
    rewrite Ht. cbn [negb]. rewrite Hl. reflexivity.
  - apply Z.leb_gt in Hl.
    assert (Hlen : length (firstn 2 v ++ stars (length v - 4)
                           ++ skipn (length v - 2) v) = length v).
    { rewrite !length_app, length_firstn, length_skipn, length_stars. lia. }
    split; [exact Hlen|].
    set (m := firstn 2 v ++ stars (length v - 4) ++ skipn (length v - 2) v) in *.
    assert (Hm : truthy m = true).
    { destruct m; [simpl in Hlen; subst v; simpl in *; lia|reflexivity]. }
    rewrite Hm. cbn [negb]. rewrite Hlen.
    rewrite (proj2 (Z.leb_gt _ _) Hl).
    assert (H2 : length (firstn 2 v) = 2%nat) by (rewrite length_firstn; lia).
    subst m. f_equal; [|f_equal].
    + apply take_app_length'. symmetry. exact H2.
    + rewrite app_assoc. apply drop_app_length'.
      rewrite length_app, H2, length_stars. lia.
Qed.

(** X14. For a key whose lower-cased name holds "pass", "secret", "key",
    "token", "credential" or "auth", masking shows at most the first two and
    the last two characters of the value: a value of up to four characters
    is all stars, and in a longer one every character between the first two
    and the last two is a star. For any other key the value is returned as
    it is. *)
Theorem mask_hides_the_middle key value :
  (sensitive_key key ->
   forall i c,
     nth_error (mask_sensitive_value key value) i = Some c ->
     (length value <= 4 \/ 2 <= i < length value - 2)%nat ->
     c = "*"%char)
  /\ (~ sensitive_key key -> mask_sensitive_value key value = value).
Proof.
  unfold mask_sensitive_value. cbv zeta. split.
  - intros Hk i c Hn Hi. apply is_sensitive_iff in Hk. rewrite Hk in Hn.
    destruct value as [|x value]; [destruct i; discriminate|].
    cbn [truthy negb] in Hn. unfold len in Hn.
    set (v := x :: value) in *.
    destruct (Z.of_nat (length v) <=? 4)%Z eqn:Hl.
    + apply nth_error_In, repeat_spec in Hn. assumption.
    + apply Z.leb_gt in Hl. destruct Hi as [Hi|Hi]; [lia|].
      assert (H2 : length (firstn 2 v) = 2%nat) by (rewrite length_firstn; lia).
      rewrite nth_error_app2 in Hn by lia.
      rewrite nth_error_app1 in Hn by (rewrite length_stars; lia).
      apply nth_error_In, repeat_spec in Hn. assumption.
  - intros Hk. destruct (negb (truthy value)); [reflexivity|].
    destruct (existsb _ SENSITIVE_PATTERNS) eqn:Hs; [|reflexivity].
    exfalso. apply Hk, is_sensitive_iff, Hs.
Qed.



Lemma lookup_size_pos (env : gmap str str) key v :
  env !! key = Some v -> mcp_is_available env = true.
Proof.
  intros H. unfold mcp_is_available. apply Nat.ltb_lt.
  destruct (decide (size env = 0)) as [E|E]; [|lia].
  apply map_size_empty_iff in E. subst env. rewrite lookup_empty in H.
  discriminate.
Qed.

(** X16. A configuration value comes from the variable with the prefix
    [MCP_] if it is set, else from the variable of the plain name if it is
    set, both reported as "MCP Config Environment", else from the defaults
    as "Default Values", and is missing only when none of the three has
    it: the availability test of the environment source never hides a
    variable that is set. *)
Theorem value_precedence (env : environ) key :
  get_value_with_source env key
  = match env !! (lit "MCP_" ++ key) with
    | Some v => (Some v, Some (lit "MCP Config Environment"))
    | None =>
        match env !! key with
        | Some v => (Some v, Some (lit "MCP Config Environment"))
        | None =>
            match defaults !! key with
            | Some d => (Some d, Some (lit "Default Values"))
            | None => (None, None)
            end
        end
    end.
Proof.
  unfold get_value_with_source, config_sources. cbn [rev app first_value].
  cbn [is_available get_value get_source_name].
  unfold mcp_get_value, default_get_value.
  destruct (env !! (lit "MCP_" ++ key)) as [v|] eqn:E1.
  - rewrite (lookup_size_pos _ _ _ E1). reflexivity.
  - destruct (env !! key) as [v|] eqn:E2.
    + rewrite (lookup_size_pos _ _ _ E2). reflexivity.
    + destruct (mcp_is_available env); destruct (defaults !! key); reflexivity.
Qed.

Example username_pattern_text :
  pattern_text username_pattern = lit "^[a-zA-Z][a-zA-Z0-9_]*$".
Proof. reflexivity. Qed.

Example SENSITIVE_PATTERNS_text :
  map pattern_text SENSITIVE_PATTERNS
  = map lit
      ["password"; "secret"; "key"; "token"; "credential"; "auth"; "pass"]%string.
Proof. reflexivity. Qed.

End ConfigFacts.
